(** * The secure synchronisation core of the dapp client

    A shallow embedding of the TypeScript sources that implement key
    agreement and authenticated encryption (EncryptionService), the
    agreement-key store (ConversationScreen.initializeSeekerKeyPair), the
    SQLite cache (SQLiteService), the socket manager (SocketService) and the
    background catch-up task (BackgroundSyncTask), followed by the
    properties the design document states about them.

    Third-party code (tweetnacl, js-base64, WebCrypto's AES-GCM,
    TextEncoder/TextDecoder, Date) is not part of the repository. Each such
    library is an interface (a type class of operations) at the types the
    code hands it; what the proofs need from it is a separate class of laws,
    so every theorem shows which library contract it rests on. Where the
    code hands a library value on as a value of another type (a string where
    a byte array is expected), the model follows what JavaScript does with
    it. *)

From Stdlib Require Import Strings.Byte ZArith Lia.
From stdpp Require Import base strings list gmap sorting.

Abbreviation bytes := (list byte).

#[global] Instance byte_eq_decision : EqDecision byte := byte_eq_dec.

(** JavaScript truthiness of a value that is either absent (undefined or
    null) or a string: only a non-empty string is truthy. *)
Definition truthy (v : option string) : bool :=
  match v with
  | Some s => negb (String.eqb s "")
  | None => false
  end.

(** [a === b] for two values that are absent or strings. The left one is a
    field of a received object (absent: undefined), the right one a field
    that is null when unset, so two absent values are not equal. *)
Definition strict_eq (a b : option string) : bool :=
  match a, b with
  | Some x, Some y => String.eqb x y
  | _, _ => false
  end.

(** * Library interfaces *)

(** tweetnacl's low-level primitives behind [nacl.box]. *)
Class NaCl := {
  (* crypto_scalarmult(q, n, p): X25519 of scalar n and point p *)
  scalarMult : bytes -> bytes -> bytes;
  (* crypto_scalarmult_base(q, n): X25519 of n and the base point *)
  scalarMult_base : bytes -> bytes;
  (* crypto_core_hsalsa20(k, _0, s, sigma) *)
  hsalsa20 : bytes -> bytes;
}.

(** The Diffie-Hellman law of X25519, for 32-byte scalars. *)
Class NaClLaws (L : NaCl) : Prop := {
  scalarMult_comm : forall a b : bytes,
    length a = 32 -> length b = 32 ->
    scalarMult a (scalarMult_base b) = scalarMult b (scalarMult_base a);
}.

(** js-base64's [encode] and [decode]. Both are functions from a string to
    a string: [decode] returns the decoded text as a JavaScript string, not a
    byte array. EncryptionService hands [encode] a Uint8Array; [encode] here
    is what the library returns for it. No law is assumed of either. *)
Module js_base64.

Class JsBase64 := {
  encode : bytes -> string;
  decode : string -> string;
}.

End js_base64.
Export (hints) js_base64.

(** [new TextEncoder().encode] and [new TextDecoder().decode]. No law is
    assumed of them; where a property needs a text to survive the encoding
    to UTF-8 and back, it says so of that text. *)
Class TextCodec := {
  TextEncoder_encode : string -> bytes;
  TextDecoder_decode : bytes -> string;
}.

(** The two functions AES-GCM is built from: the counter-mode transformation
    of the data and the 16-byte tag computed over the ciphertext. The laws
    are those of AES-256-GCM with a 96-bit nonce. *)
Class AesGcm := {
  gctr : bytes -> bytes -> bytes -> bytes;       (* key, iv, data *)
  gcm_tag : bytes -> bytes -> bytes -> bytes;    (* key, iv, ciphertext *)
}.

Class AesGcmLaws (G : AesGcm) : Prop := {
  gctr_length : forall k iv d,
    length k = 32 -> length iv = 12 -> length (gctr k iv d) = length d;
  gctr_involutive : forall k iv d,
    length k = 32 -> length iv = 12 -> gctr k iv (gctr k iv d) = d;
  gcm_tag_length : forall k iv c,
    length k = 32 -> length iv = 12 -> length (gcm_tag k iv c) = 16;
}.

(** [new Date(s).getTime()]. *)
Class JsDate := {
  Date_getTime : string -> Z;
}.

(** * nacl.box *)

Module nacl.

Record BoxKeyPair := { publicKey : bytes; secretKey : bytes }.

(** nacl.box.before(publicKey, secretKey) *)
Definition box_before `{NaCl} (publicKey secretKey : bytes) : bytes :=
  hsalsa20 (scalarMult secretKey publicKey).

(** nacl.box.keyPair.fromSecretKey(secretKey); throws on a key that is not
    32 bytes long. *)
Definition box_keyPair_fromSecretKey `{NaCl} (sk : bytes) : option BoxKeyPair :=
  if length sk =? 32
  then Some {| publicKey := scalarMult_base sk; secretKey := sk |}
  else None.

(** nacl.box.keyPair(): [sk] is the result of randombytes(32). *)
Definition box_keyPair `{NaCl} (sk : bytes) : BoxKeyPair :=
  {| publicKey := scalarMult_base sk; secretKey := sk |}.

End nacl.

(** * Uint8Array, where the code gives it strings *)

Module Uint8Array.

(** [s.byteLength] of a string [s]: a string has no such property, and the
    read gives undefined ([None]). *)
Definition byteLength (s : string) : option nat := None.

(** [a + b] of two values that are numbers or undefined: with an undefined
    operand the sum is NaN ([None]). *)
Definition plus (a b : option nat) : option nat :=
  match a, b with
  | Some x, Some y => Some (x + y)
  | _, _ => None
  end.

(** [new Uint8Array(length)]: NaN as a length is taken as 0. *)
Definition new (length : option nat) : bytes := replicate (default 0 length) x00.

(** The element a one-character string is stored as: its number value if it
    is a decimal digit, and 0 for any other character (NaN, or a blank). *)
Definition element (c : Ascii.ascii) : byte :=
  let n := Ascii.N_of_ascii c in
  if (48 <=? n)%N && (n <=? 57)%N then default x00 (Byte.of_N (n - 48)) else x00.

(** [target.set(source, offset)] where [source] is a string, taken as an
    array-like of its characters, and an undefined offset is 0: a RangeError
    ([None]) when source.length + offset exceeds the length of the target,
    otherwise the target with the elements of the source written at the
    offset. *)
Definition set (target : bytes) (source : string) (offset : option nat)
    : option bytes :=
  let offset := default 0 offset in
  if length target <? String.length source + offset then None
  else Some (take offset target
               ++ (element <$> String.list_ascii_of_string source)
               ++ drop (offset + String.length source) target).

End Uint8Array.

(** * crypto.subtle with AES-GCM *)

Module subtle.

Inductive CryptoError :=
| DataError              (* importKey: the raw key is not 128, 192 or 256 bits *)
| RangeError             (* a typed-array view or write outside its buffer *)
| TypeError              (* a parameter that is not of the type WebCrypto requires *)
| AuthenticationFailed.  (* decrypt: the tag does not verify (OperationError) *)

(** A value given as the iv of AesGcmParams: a byte array, or a string. *)
Inductive IvValue :=
| iv_bytes (iv : bytes)
| iv_string (iv : string).

Definition tagLength : nat := 16.

(** crypto.subtle.importKey('raw', key, {name: 'AES-GCM'}, false, usages) *)
Definition importKey (raw : bytes) : CryptoError + bytes :=
  if (length raw =? 16) || (length raw =? 24) || (length raw =? 32)
  then inr raw
  else inl DataError.

(** crypto.subtle.encrypt({name: 'AES-GCM', iv}, key, data): the
    ciphertext followed by the tag. *)
Definition encrypt `{AesGcm} (key iv data : bytes) : bytes :=
  let c := gctr key iv data in c ++ gcm_tag key iv c.

(** crypto.subtle.decrypt({name: 'AES-GCM', iv}, key, data): rejects with
    a TypeError when iv is not a BufferSource, and otherwise rejects unless
    the last 16 bytes of the data are the tag of what precedes them. *)
Definition decrypt `{AesGcm} (key : bytes) (iv : IvValue) (data : bytes)
    : CryptoError + bytes :=
  match iv with
  | iv_string _ => inl TypeError
  | iv_bytes iv =>
      if length data <? tagLength then inl AuthenticationFailed
      else
        let c := take (length data - tagLength) data in
        let t := drop (length data - tagLength) data in
        if decide (t = gcm_tag key iv c) then inr (gctr key iv c)
        else inl AuthenticationFailed
  end.

End subtle.

(** * EncryptionService *)

Module EncryptionService.
Import subtle js_base64.

Record Envelope := { iv : string; ciphertext : string; tag : string }.

(** generateX25519KeyPair(); [sk] is the entropy nacl.box.keyPair draws. *)
Definition generateX25519KeyPair `{NaCl} (sk : bytes) : nacl.BoxKeyPair :=
  nacl.box_keyPair sk.

Definition deriveSharedSecret `{NaCl}
    (seekerPrivateKey recipientPublicKey : bytes) : bytes :=
  nacl.box_before recipientPublicKey seekerPrivateKey.

(** encrypt(sharedSecret, payload); [nonce] is the value of
    AES.getRandomBytes(12). *)
Definition encrypt `{AesGcm, JsBase64, TextCodec}
    (sharedSecret : bytes) (payload : string) (nonce : bytes)
    : CryptoError + Envelope :=
  match importKey sharedSecret with
  | inl e => inl e
  | inr key =>
      let encodedPayload := TextEncoder_encode payload in
      let encrypted := subtle.encrypt key nonce encodedPayload in
      if length encrypted <? tagLength then inl RangeError
      else
        let ciphertext := take (length encrypted - tagLength) encrypted in
        let tag := take tagLength (drop (length encrypted - tagLength) encrypted) in
        inr {| iv := encode nonce;
               ciphertext := encode ciphertext;
               tag := encode tag |}
  end.

(** decrypt(sharedSecret, encryptedData). The three results of [decode]
    are strings. The buffer for ciphertext and tag is allocated from their
    byteLength, which a string does not have; the two [set] calls then write
    the strings into it, and the first that does not fit throws. The iv
    given to crypto.subtle.decrypt is the decoded string. *)
Definition decrypt `{AesGcm, JsBase64, TextCodec}
    (sharedSecret : bytes) (encryptedData : Envelope) : CryptoError + string :=
  let iv := decode (iv encryptedData) in
  let ciphertext := decode (ciphertext encryptedData) in
  let tag := decode (tag encryptedData) in
  let fullEncrypted :=
    Uint8Array.new (Uint8Array.plus (Uint8Array.byteLength ciphertext)
                                    (Uint8Array.byteLength tag)) in
  match Uint8Array.set fullEncrypted ciphertext (Some 0) with
  | None => inl RangeError
  | Some fullEncrypted =>
      match Uint8Array.set fullEncrypted tag (Uint8Array.byteLength ciphertext) with
      | None => inl RangeError
      | Some fullEncrypted =>
          match importKey sharedSecret with
          | inl e => inl e
          | inr key =>
              match subtle.decrypt key (iv_string iv) fullEncrypted with
              | inl e => inl e
              | inr decrypted => inr (TextDecoder_decode decrypted)
              end
          end
      end
  end.

(** fetchRecipientX25519PublicKey(recipientIdentifier): the placeholder
    returns the public half of a key pair generated on the spot; [sk] is
    the entropy of that generation. *)
Definition fetchRecipientX25519PublicKey `{NaCl}
    (recipientIdentifier : string) (sk : bytes) : bytes :=
  nacl.publicKey (generateX25519KeyPair sk).

(** An envelope whose authTag field has been replaced. *)
Definition with_tag (tag' : string) (e : Envelope) : Envelope :=
  {| iv := iv e; ciphertext := ciphertext e; tag := tag' |}.

End EncryptionService.

(** * The agreement-key store: ConversationScreen.initializeSeekerKeyPair *)

Module ConversationScreen.

Definition SECRET_STORE_KEY_PREFIX : string := "e2ee-keypair-".

(** The `e2ee-keypair-<identity>` name under which the key is stored. *)
Definition keyStoreId (seekerPublicKeyBase58 : string) : string :=
  SECRET_STORE_KEY_PREFIX +:+ seekerPublicKeyBase58.

(** The Base64 helpers the screen calls as util.decodeBase64 and
    util.encodeBase64: the API of the package tweetnacl-util. *)
Record Util := {
  decodeBase64 : string -> option bytes;   (* [None]: throws, not Base64 *)
  encodeBase64 : bytes -> string;
}.

(** [import { util } from 'tweetnacl']. The module tweetnacl has the NaCl
    functions (box, secretbox, sign, hash, randomBytes and the rest) and no
    export named util; tweetnacl-util is a package of its own, which the
    screen does not import, and the declaration of a util member in the
    repository's tweetnacl.d.ts creates nothing at run time. So the binding
    is undefined. *)
Definition util : option Util := None.

(** [util.decodeBase64(s)] and [util.encodeBase64(b)]: reading a property of
    an undefined binding throws a TypeError ([None]), inside the try of
    initializeSeekerKeyPair. *)
Definition util_decodeBase64 (s : string) : option bytes :=
  match util with
  | Some u => decodeBase64 u s
  | None => None
  end.

Definition util_encodeBase64 (b : bytes) : option string :=
  match util with
  | Some u => Some (encodeBase64 u b)
  | None => None
  end.

(** One run of initializeSeekerKeyPair, between its two awaits. A run
    starts suspended on SecureStore.getItemAsync; [entropy] is what
    nacl.box.keyPair will draw if the run generates a key. A run that gets
    as far as SecureStore.setItemAsync is suspended on it with the value it
    passes. [Finished None] is the catch branch (the alert), where no key
    pair is set. *)
Inductive Run :=
| AwaitGetItem (keyStoreId : string) (entropy : bytes)
| AwaitSetItem (keyStoreId : string) (value : string) (keyPair : nacl.BoxKeyPair)
| Finished (keyPair : option nacl.BoxKeyPair).

Definition start (seekerPublicKeyBase58 : string) (entropy : bytes) : Run :=
  AwaitGetItem (keyStoreId seekerPublicKeyBase58) entropy.

(** The try branch for a stored key: util.decodeBase64, then
    nacl.box.keyPair.fromSecretKey; [None] when either throws. *)
Definition loadKeyPair `{NaCl} (storedSecretKey : string)
    : option nacl.BoxKeyPair :=
  match util_decodeBase64 storedSecretKey with
  | Some secretKeyUint8 => nacl.box_keyPair_fromSecretKey secretKeyUint8
  | None => None
  end.

(** Resume a run at its pending await. SecureStore is a map from names to
    strings. In the branch that generates a key, the argument of
    setItemAsync, util.encodeBase64(keyPair.secretKey), is evaluated before
    the call: when it throws, the run goes to the catch and setItemAsync is
    not called. *)
Definition resume `{NaCl}
    (store : gmap string string) (r : Run) : gmap string string * Run :=
  match r with
  | AwaitGetItem k entropy =>
      let storedSecretKey := store !! k in
      if truthy storedSecretKey then
        (store, Finished (from_option loadKeyPair None storedSecretKey))
      else
        let keyPair := EncryptionService.generateX25519KeyPair entropy in
        match util_encodeBase64 (nacl.secretKey keyPair) with
        | Some value => (store, AwaitSetItem k value keyPair)
        | None => (store, Finished None)
        end
  | AwaitSetItem k value keyPair =>
      (<[k := value]> store, Finished (Some keyPair))
  | Finished keyPair => (store, Finished keyPair)
  end.

(** A run that has not got as far as setItemAsync: it waits for the read of
    the store, or it has ended in the catch. *)
Definition unwritten (r : Run) : Prop :=
  (exists k entropy, r = AwaitGetItem k entropy) \/ r = Finished None.

(** A run on its own: both awaits resume with nothing in between. *)
Definition initializeSeekerKeyPair `{NaCl}
    (seekerPublicKeyBase58 : string) (entropy : bytes)
    (store : gmap string string)
    : gmap string string * option nacl.BoxKeyPair :=
  let '(store1, r1) := resume store (start seekerPublicKeyBase58 entropy) in
  let '(store2, r2) := resume store1 r1 in
  (store2, match r2 with Finished keyPair => keyPair | _ => None end).

(** Several runs in flight: [schedule] lists, in order, which run resumes
    next. *)
Fixpoint interleave `{NaCl}
    (schedule : list nat) (store : gmap string string) (runs : list Run)
    : gmap string string * list Run :=
  match schedule with
  | [] => (store, runs)
  | i :: schedule' =>
      match runs !! i with
      | Some r =>
          let '(store', r') := resume store r in
          interleave schedule' store' (<[i := r']> runs)
      | None => interleave schedule' store runs
      end
  end.

End ConversationScreen.

(** * SQLiteService *)

Module Community.
Inductive CommunityType := public | private.
Record t := {
  id : string;
  creator_public_key : string;
  name : string;
  type : CommunityType;
  gating_mint : option string;
  created_at : Z;
  is_member : Z;
}.
End Community.

Module CommunityPost.
Record t := {
  id : string;
  community_id : string;
  author_public_key : string;
  content : string;
  signature : string;
  timestamp : Z;
  likes_count : Z;
  reposts_count : Z;
  is_liked_by_me : Z;
  is_reposted_by_me : Z;
  author_name : option string;
  is_moderated : Z;
}.
End CommunityPost.

Module SQLiteService.

(** The two tables of initDb, each a list of rows. *)
Record Database := {
  communities : list Community.t;
  community_posts : list CommunityPost.t;
}.

Definition empty : Database := {| communities := []; community_posts := [] |}.

(** The PRIMARY KEY constraints of the schema. *)
Definition primary_keys (db : Database) : Prop :=
  NoDup (Community.id <$> communities db) /\
  NoDup (CommunityPost.id <$> community_posts db).


(** INSERT OR REPLACE INTO communities: the row with the same primary key,
    if any, is deleted and the new row inserted. *)
Definition insertCommunity (community : Community.t) (db : Database) : Database :=
  {| communities :=
       filter (fun r => Community.id r <> Community.id community) (communities db)
         ++ [community];
     community_posts := community_posts db |}.

(** SELECT * FROM communities WHERE id = ?, first row or null. *)
Definition getCommunityById (id : string) (db : Database) : option Community.t :=
  head (filter (fun r => Community.id r = id) (communities db)).

(** UPDATE communities SET is_member = ? WHERE id = ? *)
Definition updateCommunityMembership (communityId : string) (isMember : Z)
    (db : Database) : Database :=
  {| communities :=
       (fun r => if decide (Community.id r = communityId)
                 then {| Community.id := Community.id r;
                         Community.creator_public_key := Community.creator_public_key r;
                         Community.name := Community.name r;
                         Community.type := Community.type r;
                         Community.gating_mint := Community.gating_mint r;
                         Community.created_at := Community.created_at r;
                         Community.is_member := isMember |}
                 else r) <$> communities db;
     community_posts := community_posts db |}.

(** INSERT OR REPLACE INTO community_posts *)
Definition insertCommunityPost (post : CommunityPost.t) (db : Database) : Database :=
  {| communities := communities db;
     community_posts :=
       filter (fun r => CommunityPost.id r <> CommunityPost.id post) (community_posts db)
         ++ [post] |}.

(** The rows of SELECT * FROM community_posts WHERE community_id = ?
    (getCommunityPosts returns them ordered by timestamp). *)
Definition postsOfCommunity (communityId : string) (db : Database)
    : list CommunityPost.t :=
  filter (fun r => CommunityPost.community_id r = communityId) (community_posts db).

Definition set_engagement (likesCount repostsCount isLikedByMe isRepostedByMe : Z)
    (r : CommunityPost.t) : CommunityPost.t :=
  {| CommunityPost.id := CommunityPost.id r;
     CommunityPost.community_id := CommunityPost.community_id r;
     CommunityPost.author_public_key := CommunityPost.author_public_key r;
     CommunityPost.content := CommunityPost.content r;
     CommunityPost.signature := CommunityPost.signature r;
     CommunityPost.timestamp := CommunityPost.timestamp r;
     CommunityPost.likes_count := likesCount;
     CommunityPost.reposts_count := repostsCount;
     CommunityPost.is_liked_by_me := isLikedByMe;
     CommunityPost.is_reposted_by_me := isRepostedByMe;
     CommunityPost.author_name := CommunityPost.author_name r;
     CommunityPost.is_moderated := CommunityPost.is_moderated r |}.

Definition set_moderation (isModerated : Z) (r : CommunityPost.t) : CommunityPost.t :=
  {| CommunityPost.id := CommunityPost.id r;
     CommunityPost.community_id := CommunityPost.community_id r;
     CommunityPost.author_public_key := CommunityPost.author_public_key r;
     CommunityPost.content := CommunityPost.content r;
     CommunityPost.signature := CommunityPost.signature r;
     CommunityPost.timestamp := CommunityPost.timestamp r;
     CommunityPost.likes_count := CommunityPost.likes_count r;
     CommunityPost.reposts_count := CommunityPost.reposts_count r;
     CommunityPost.is_liked_by_me := CommunityPost.is_liked_by_me r;
     CommunityPost.is_reposted_by_me := CommunityPost.is_reposted_by_me r;
     CommunityPost.author_name := CommunityPost.author_name r;
     CommunityPost.is_moderated := isModerated |}.

(** UPDATE community_posts SET ... WHERE id = ? *)
Definition update_post (postId : string) (f : CommunityPost.t -> CommunityPost.t)
    (db : Database) : Database :=
  {| communities := communities db;
     community_posts :=
       (fun r => if decide (CommunityPost.id r = postId) then f r else r)
         <$> community_posts db |}.

Definition updateCommunityPostEngagement
    (postId : string) (likesCount repostsCount isLikedByMe isRepostedByMe : Z)
    (db : Database) : Database :=
  update_post postId
    (set_engagement likesCount repostsCount isLikedByMe isRepostedByMe) db.

Definition updateCommunityPostModeration (postId : string) (isModerated : Z)
    (db : Database) : Database :=
  update_post postId (set_moderation isModerated) db.

(** DELETE FROM community_posts WHERE id = ? *)
Definition deleteCommunityPost (postId : string) (db : Database) : Database :=
  {| communities := communities db;
     community_posts :=
       filter (fun r => CommunityPost.id r <> postId) (community_posts db) |}.

(** A database connection, as far as the schema depends on it: whether
    PRAGMA foreign_keys is on. SQLite parses FOREIGN KEY clauses on every
    connection and enforces them, ON DELETE CASCADE included, only on a
    connection where the pragma has been turned on. *)
Record Connection := { foreign_keys_pragma : bool }.

(** SQLite.openDatabase(DATABASE_NAME): a connection starts with the pragma
    off. *)
Definition openDatabase : Connection := {| foreign_keys_pragma := false |}.

(** The statements a connection may be given, as far as they touch the
    pragma. *)
Inductive SchemaStatement :=
| CreateTableIfNotExists (name : string)
| CreateIndexIfNotExists (name : string)
| PragmaForeignKeys (on : bool).

Definition executeSchema (conn : Connection) (s : SchemaStatement) : Connection :=
  match s with
  | PragmaForeignKeys on => {| foreign_keys_pragma := on |}
  | CreateTableIfNotExists _ | CreateIndexIfNotExists _ => conn
  end.

(** initDb: it opens the database and runs, in one transaction, the four
    statements that create the two tables and the two indexes. *)
Definition initDb : Connection :=
  foldl executeSchema openDatabase
    [CreateTableIfNotExists "communities";
     CreateTableIfNotExists "community_posts";
     CreateIndexIfNotExists "idx_community_posts_community_id";
     CreateIndexIfNotExists "idx_community_posts_timestamp"].

(** DELETE FROM communities WHERE id = ? on a connection, under the schema
    of initDb, where community_posts.community_id REFERENCES communities
    (id) ON DELETE CASCADE: the row is deleted, and the posts that reference
    it are deleted with it when the connection enforces foreign keys and
    stay when it does not. No method of SQLiteService runs this statement;
    the service deletes communities in clearAllData, after the posts, and
    replaces them in insertCommunity. *)
Definition deleteCommunity (conn : Connection) (communityId : string)
    (db : Database) : Database :=
  {| communities :=
       filter (fun r => Community.id r <> communityId) (communities db);
     community_posts :=
       if foreign_keys_pragma conn
       then filter (fun r => CommunityPost.community_id r <> communityId)
              (community_posts db)
       else community_posts db |}.

(** clearAllData: DELETE FROM community_posts; DELETE FROM communities; *)
Definition clearAllData (db : Database) : Database :=
  let db1 := {| communities := communities db; community_posts := [] |} in
  {| communities := []; community_posts := community_posts db1 |}.

(** The writes the service offers on one post row and on one community
    row. *)
Inductive PostWrite :=
| InsertPost (post : CommunityPost.t)
| UpdateEngagement (postId : string)
    (likesCount repostsCount isLikedByMe isRepostedByMe : Z)
| UpdateModeration (postId : string) (isModerated : Z)
| DeletePost (postId : string).

Definition post_write_id (w : PostWrite) : string :=
  match w with
  | InsertPost post => CommunityPost.id post
  | UpdateEngagement postId _ _ _ _ => postId
  | UpdateModeration postId _ => postId
  | DeletePost postId => postId
  end.

Definition post_write (db : Database) (w : PostWrite) : Database :=
  match w with
  | InsertPost post => insertCommunityPost post db
  | UpdateEngagement postId l r lm rm => updateCommunityPostEngagement postId l r lm rm db
  | UpdateModeration postId m => updateCommunityPostModeration postId m db
  | DeletePost postId => deleteCommunityPost postId db
  end.

Inductive CommunityWrite :=
| InsertCommunity (community : Community.t)
| UpdateMembership (communityId : string) (isMember : Z).

Definition community_write_id (w : CommunityWrite) : string :=
  match w with
  | InsertCommunity community => Community.id community
  | UpdateMembership communityId _ => communityId
  end.

Definition community_write (db : Database) (w : CommunityWrite) : Database :=
  match w with
  | InsertCommunity community => insertCommunity community db
  | UpdateMembership communityId m => updateCommunityMembership communityId m db
  end.

(** ORDER BY created_at DESC and ORDER BY timestamp DESC: the row with the
    greater value comes first. SQLite leaves the order of rows with equal
    values open; the sort used here keeps them in one of the possible
    orders. *)
Definition newer_community (a b : Community.t) : Prop :=
  (Community.created_at b <= Community.created_at a)%Z.

#[global] Instance newer_community_dec : RelDecision newer_community :=
  fun a b => decide (Community.created_at b <= Community.created_at a)%Z.

Definition newer_post (a b : CommunityPost.t) : Prop :=
  (CommunityPost.timestamp b <= CommunityPost.timestamp a)%Z.

#[global] Instance newer_post_dec : RelDecision newer_post :=
  fun a b => decide (CommunityPost.timestamp b <= CommunityPost.timestamp a)%Z.

(** SELECT * FROM communities ORDER BY created_at DESC *)
Definition getCommunities (db : Database) : list Community.t :=
  merge_sort newer_community (communities db).

(** SELECT * FROM community_posts WHERE community_id = ? ORDER BY timestamp
    DESC *)
Definition getCommunityPosts (communityId : string) (db : Database)
    : list CommunityPost.t :=
  merge_sort newer_post (postsOfCommunity communityId db).

(** Any write of the service: on a community row, on a post row, or
    clearAllData. *)
Inductive Write :=
| OnCommunity (w : CommunityWrite)
| OnPost (w : PostWrite)
| ClearAllData.

Definition write (db : Database) (w : Write) : Database :=
  match w with
  | OnCommunity w => community_write db w
  | OnPost w => post_write db w
  | ClearAllData => clearAllData db
  end.

End SQLiteService.

(** * SocketService *)

Module SocketService.

(** What the service sends with socket.emit. Message and post payloads are
    opaque to the service and carried as text. *)
Inductive SocketEvent :=
| authenticate_ev (userId : string)
| join_chat (chatId : string)
| leave_chat (chatId : string)
| send_message (message : string) (chatId : string)
| join_community (communityId : string)
| leave_community (communityId : string)
| send_community_post (communityId : string) (post : string)
| typing (chatId : string) (isTyping : bool).

(** An object received with new_message; a field that is missing is
    [None]. *)
Module Message.
Record t := {
  id : option string;
  chat_room_id : option string;
  iv : option string;
  ciphertext : option string;
  tag : option string;
  senderPublicKey : option string;
  sender_id : option string;
  created_at : option string;
}.
End Message.

(** The actions of the chat slice that the service dispatches.
    processEncryptedMessage carries created_at as received, where the
    source converts it with Date. *)
Inductive Action :=
| processEncryptedMessage
    (iv ciphertext tag senderPublicKey chatId messageId : option string)
    (created_at : option string)
| receiveMessage (message : Message.t)
| incrementUnreadCount (chatId senderId : option string).

(** What a method or a handler does besides changing the service.
    console.log calls are left out. *)
Inductive Effect :=
| Emit (e : SocketEvent)                       (* this.socket.emit(...) *)
| Dispatch (a : Action)                        (* store.dispatch(...) *)
| SQLiteInsertPost (post : CommunityPost.t)    (* SQLiteService.insertCommunityPost(post) *)
| SetTimeoutInitSocket (ms : nat) (userId : string)
                                               (* setTimeout(() => this.initSocket(userId), ms) *)
| Resolve (connected : bool)                   (* resolve(...) of initSocket's promise *)
| ConsoleError (msg : string)
| ConsoleWarn (msg : string).

(** The socket.io client socket, as far as the service reads it. *)
Record Socket := { connected : bool }.

Record t := {
  socket : option Socket;
  userId : option string;
  activeRooms : list string;       (* a Set, in insertion order *)
  _isConnected : bool;
  reconnectAttempts : nat;
  maxReconnectAttempts : nat;
  isPersistent : bool;
}.

Definition initial : t :=
  {| socket := None; userId := None; activeRooms := []; _isConnected := false;
     reconnectAttempts := 0; maxReconnectAttempts := 5; isPersistent := true |}.

Definition with_socket (s : option Socket) (st : t) : t :=
  {| socket := s; userId := userId st; activeRooms := activeRooms st;
     _isConnected := _isConnected st; reconnectAttempts := reconnectAttempts st;
     maxReconnectAttempts := maxReconnectAttempts st; isPersistent := isPersistent st |}.

Definition with_userId (u : option string) (st : t) : t :=
  {| socket := socket st; userId := u; activeRooms := activeRooms st;
     _isConnected := _isConnected st; reconnectAttempts := reconnectAttempts st;
     maxReconnectAttempts := maxReconnectAttempts st; isPersistent := isPersistent st |}.

Definition with_activeRooms (rooms : list string) (st : t) : t :=
  {| socket := socket st; userId := userId st; activeRooms := rooms;
     _isConnected := _isConnected st; reconnectAttempts := reconnectAttempts st;
     maxReconnectAttempts := maxReconnectAttempts st; isPersistent := isPersistent st |}.

Definition with_isConnected (b : bool) (st : t) : t :=
  {| socket := socket st; userId := userId st; activeRooms := activeRooms st;
     _isConnected := b; reconnectAttempts := reconnectAttempts st;
     maxReconnectAttempts := maxReconnectAttempts st; isPersistent := isPersistent st |}.

Definition with_reconnectAttempts (n : nat) (st : t) : t :=
  {| socket := socket st; userId := userId st; activeRooms := activeRooms st;
     _isConnected := _isConnected st; reconnectAttempts := n;
     maxReconnectAttempts := maxReconnectAttempts st; isPersistent := isPersistent st |}.

Definition with_isPersistent (b : bool) (st : t) : t :=
  {| socket := socket st; userId := userId st; activeRooms := activeRooms st;
     _isConnected := _isConnected st; reconnectAttempts := reconnectAttempts st;
     maxReconnectAttempts := maxReconnectAttempts st; isPersistent := b |}.

(** Set.has, Set.add and Set.delete on the room set. *)
Definition has (room : string) (rooms : list string) : bool :=
  bool_decide (room ∈ rooms).

Definition add (room : string) (rooms : list string) : list string :=
  if has room rooms then rooms else rooms ++ [room].

Definition delete (room : string) (rooms : list string) : list string :=
  filter (fun r => r <> room) rooms.

(** [this.socket && this.socket.connected] *)
Definition socket_connected (st : t) : bool :=
  match socket st with
  | Some s => connected s
  | None => false
  end.

(** Set.forEach and Array.forEach: run [f] on every element in turn,
    threading the service and collecting what each call does. The elements
    are those present when the loop starts; the one loop over activeRooms,
    in the connect handler, never changes the set (rejoin_sends_nothing). *)
Definition forEach {A} (f : A -> t -> t * list Effect) (l : list A) (st : t)
    : t * list Effect :=
  foldl (fun acc x => let '(st', out) := f x acc.1 in (st', acc.2 ++ out)) (st, []) l.

Definition authenticate (userId : string) (st : t) : t * list Effect :=
  if negb (socket_connected st)
  then (st, [ConsoleError "Cannot authenticate: socket not connected"])
  else (st, [Emit (authenticate_ev userId)]).

Definition joinChat (chatId : string) (st : t) : t * list Effect :=
  if negb (socket_connected st)
  then (st, [ConsoleError "Cannot join chat: socket not connected"])
  else if has chatId (activeRooms st) then (st, [])
  else (with_activeRooms (add chatId (activeRooms st)) st, [Emit (join_chat chatId)]).

Definition joinChats (chatIds : list string) (st : t) : t * list Effect :=
  forEach (fun chatId st =>
             if truthy (Some chatId) && negb (has chatId (activeRooms st))
             then joinChat chatId st else (st, []))
          chatIds st.

Definition leaveChat (chatId : string) (st : t) : t * list Effect :=
  if negb (socket_connected st)
  then (st, [ConsoleError "Cannot leave chat: socket not connected"])
  else if negb (has chatId (activeRooms st)) then (st, [])
  else (with_activeRooms (delete chatId (activeRooms st)) st, [Emit (leave_chat chatId)]).

Definition setPersistentMode (isPersistent : bool) (st : t) : t :=
  with_isPersistent isPersistent st.

(** The handler of the socket's disconnect event. *)
Definition on_disconnect (reason : string) (st : t) : t * list Effect :=
  let st := with_isConnected false st in
  if negb (String.eqb reason "io client disconnect") && isPersistent st then
    match userId st with
    | Some u => (st, [SetTimeoutInitSocket 2000 u])
    | None => (st, [])
    end
  else (st, []).

(** socket.disconnect() of socket.io: a connected socket closes and its
    disconnect event fires with the reason "io client disconnect". *)
Definition socket_disconnect (st : t) : t * list Effect :=
  if socket_connected st
  then on_disconnect "io client disconnect" (with_socket (Some {| connected := false |}) st)
  else (st, []).

(** The transport is lost for [reason]: the socket is no longer connected
    and its disconnect event fires. *)
Definition transport_lost (reason : string) (st : t) : t * list Effect :=
  if socket_connected st
  then on_disconnect reason (with_socket (Some {| connected := false |}) st)
  else (st, []).

Definition pauseConnection (st : t) : t * list Effect :=
  if bool_decide (is_Some (socket st)) && _isConnected st then
    let st := with_activeRooms [] st in
    let '(st, out) := socket_disconnect st in
    (with_isConnected false st, out)
  else (st, []).

(** initSocket(userId), up to the point where the new socket is created
    and its handlers are registered. *)
Definition initSocket (userId' : string) (st : t) : t * list Effect :=
  if bool_decide (is_Some (socket st)) && _isConnected st
     && strict_eq (userId st) (Some userId')
  then (st, [Resolve true])
  else
    let '(st, out) :=
      if bool_decide (is_Some (socket st)) then socket_disconnect st else (st, []) in
    let st := with_userId (Some userId') st in
    let st := with_reconnectAttempts 0 st in
    let st := with_socket (Some {| connected := false |}) st in
    (st, out).

(** The handler initSocket(userId) registers for the connect event. *)
Definition on_connect (userId' : string) (st : t) : t * list Effect :=
  let '(st, out1) := authenticate userId' st in
  let st := with_isConnected true st in
  let '(st, out2) :=
    if 0 <? length (activeRooms st)
    then forEach joinChat (activeRooms st) st
    else (st, []) in
  (st, out1 ++ out2 ++ [Resolve true]).

(** The transport of the current socket is established: the socket is
    connected and its connect event fires. *)
Definition transport_connected (userId' : string) (st : t) : t * list Effect :=
  match socket st with
  | Some _ => on_connect userId' (with_socket (Some {| connected := true |}) st)
  | None => (st, [])
  end.

Definition resumeConnection (userId' : string) (st : t) : t * list Effect :=
  initSocket userId' st.

Definition sendMessage (chatId : string) (message : string) (st : t)
    : t * list Effect :=
  if negb (socket_connected st)
  then (st, [ConsoleError "Cannot send message: socket not connected"])
  else
    let '(st, out) :=
      if negb (has chatId (activeRooms st)) then joinChat chatId st else (st, []) in
    (st, out ++ [Emit (send_message message chatId)]).

Definition joinCommunityFeed (communityId : string) (st : t) : t * list Effect :=
  if negb (socket_connected st)
  then (st, [ConsoleError "Cannot join community feed: socket not connected"])
  else
    let roomId := "community_" +:+ communityId in
    if has roomId (activeRooms st) then (st, [])
    else (with_activeRooms (add roomId (activeRooms st)) st,
          [Emit (join_community roomId)]).

Definition leaveCommunityFeed (communityId : string) (st : t) : t * list Effect :=
  if negb (socket_connected st)
  then (st, [ConsoleError "Cannot leave community feed: socket not connected"])
  else
    let roomId := "community_" +:+ communityId in
    if negb (has roomId (activeRooms st)) then (st, [])
    else (with_activeRooms (delete roomId (activeRooms st)) st,
          [Emit (leave_community roomId)]).

Definition sendCommunityPost (communityId : string) (post : string) (st : t)
    : t * list Effect :=
  if negb (socket_connected st)
  then (st, [ConsoleError "Cannot send community post: socket not connected"])
  else
    let roomId := "community_" +:+ communityId in
    let out :=
      if negb (has roomId (activeRooms st))
      then [ConsoleWarn "Not in community room, attempting to send anyway."]
      else [] in
    (st, out ++ [Emit (send_community_post roomId post)]).

Definition disconnect (st : t) : t * list Effect :=
  if isPersistent st then (st, []) else pauseConnection st.

Definition isConnected (st : t) : bool := socket_connected st.

(** The handler of new_message. [selectedChatId] is
    store.getState().chat.selectedChatId. *)
Definition on_new_message (selectedChatId : option string)
    (message : option Message.t) (st : t) : list Effect :=
  match message with
  | Some message =>
      if truthy (Message.id message) && truthy (Message.chat_room_id message) then
        if truthy (Message.iv message) && truthy (Message.ciphertext message)
           && truthy (Message.tag message) && truthy (Message.senderPublicKey message)
        then
          [Dispatch (processEncryptedMessage
                       (Message.iv message) (Message.ciphertext message)
                       (Message.tag message) (Message.senderPublicKey message)
                       (Message.chat_room_id message) (Message.id message)
                       (Message.created_at message))]
        else if strict_eq (Message.sender_id message) (userId st) then []
        else
          Dispatch (receiveMessage message)
            :: (if negb (strict_eq (Message.chat_room_id message) selectedChatId)
                then [Dispatch (incrementUnreadCount (Message.chat_room_id message)
                                  (Message.sender_id message))]
                else [])
      else [ConsoleError "Received malformed message from socket:"]
  | None => [ConsoleError "Received malformed message from socket:"]
  end.

(** Module resolution for a dynamic import in socketService.ts, which is
    src/shared/services/socketService.ts: the specifiers that name
    src/shared/services/SQLiteService from there. Any other specifier does
    not resolve to the service. *)
Definition resolves_to_SQLiteService (specifier : string) : bool :=
  bool_decide (specifier ∈ ["./SQLiteService"; "../services/SQLiteService";
                            "@/shared/services/SQLiteService"]%string).

(** The handler of community_post_received. [currentUserId] is
    store.getState().auth.address. For a post of another author the handler
    calls import('../shared/services/SQLiteService') and inserts the post in
    the callback of that promise. From src/shared/services that specifier
    names src/shared/shared/services/SQLiteService, which does not exist:
    the import is rejected, the callback with the insert does not run, and
    the rejection has no handler. *)
Definition on_community_post_received (currentUserId : option string)
    (post : option CommunityPost.t) : list Effect :=
  match post with
  | Some post =>
      if truthy (Some (CommunityPost.id post))
         && truthy (Some (CommunityPost.community_id post))
      then
        if strict_eq (Some (CommunityPost.author_public_key post)) currentUserId
        then []
        else if resolves_to_SQLiteService "../shared/services/SQLiteService"
        then [SQLiteInsertPost post]
        else []
      else [ConsoleError "Received malformed community post from socket:"]
  | None => [ConsoleError "Received malformed community post from socket:"]
  end.

(** The emitted socket events among a list of effects, and the rooms they
    ask to join. *)
Definition emitted (out : list Effect) : list SocketEvent :=
  omap (fun e => match e with Emit ev => Some ev | _ => None end) out.

Definition join_requests (out : list Effect) : list string :=
  omap (fun e => match e with
                 | Emit (join_chat room) => Some room
                 | Emit (join_community room) => Some room
                 | _ => None
                 end) out.

(** The actions and cache writes an inbound handler forwards. *)
Definition is_forward (e : Effect) : bool :=
  match e with
  | Dispatch _ | SQLiteInsertPost _ => true
  | _ => false
  end.

Definition forwarded (out : list Effect) : list Effect :=
  filter (fun e => is_forward e = true) out.

Definition sendTypingIndicator (chatId : string) (isTyping : bool) (st : t)
    : t * list Effect :=
  if negb (socket_connected st) then (st, [])
  else (st, [Emit (typing chatId isTyping)]).

(** The calls the screens make on the service for rooms and messages. The
    calls that manage the connection (initSocket, pauseConnection,
    resumeConnection, setPersistentMode, disconnect) are functions of their
    own above, and the generic emit is not modelled. *)
Inductive Command :=
| JoinChat (chatId : string)
| JoinChats (chatIds : list string)
| LeaveChat (chatId : string)
| SendMessage (chatId : string) (message : string)
| JoinCommunityFeed (communityId : string)
| LeaveCommunityFeed (communityId : string)
| SendCommunityPost (communityId : string) (post : string)
| SendTypingIndicator (chatId : string) (isTyping : bool).

Definition run (c : Command) (st : t) : t * list Effect :=
  match c with
  | JoinChat chatId => joinChat chatId st
  | JoinChats chatIds => joinChats chatIds st
  | LeaveChat chatId => leaveChat chatId st
  | SendMessage chatId message => sendMessage chatId message st
  | JoinCommunityFeed communityId => joinCommunityFeed communityId st
  | LeaveCommunityFeed communityId => leaveCommunityFeed communityId st
  | SendCommunityPost communityId post => sendCommunityPost communityId post st
  | SendTypingIndicator chatId isTyping => sendTypingIndicator chatId isTyping st
  end.

Definition run_all (cs : list Command) (st : t) : t * list Effect :=
  forEach run cs st.

(** The room set of the other end after it has seen an event: a join event
    adds the room it names, a leave event removes it. *)
Definition room_event (rooms : list string) (ev : SocketEvent) : list string :=
  match ev with
  | join_chat room | join_community room => add room rooms
  | leave_chat room | leave_community room => delete room rooms
  | _ => rooms
  end.

End SocketService.

(** * BackgroundSyncTask: the loop over the missed posts of one community

    The loop is lines 80 to 133 of the task. The task as written does not
    get to it: before the loop it tests currentSeekerPublicKeyBase558, an
    identifier that is declared nowhere (the constant read from the store
    one line above is currentSeekerPublicKeyBase58), so every run throws a
    ReferenceError into the outer catch of the task. What is modelled and
    proved here is the loop. *)

Module BackgroundSyncTask.

(** A post as the sync endpoint returns it. [content] is read by the
    branch for posts that are not encrypted and may be missing. *)
Record EncryptedServerMessage := {
  id : string;
  sender_id : string;
  created_at : string;
  is_encrypted : bool;
  iv : string;
  ciphertext : string;
  tag : string;
  content : option string;
}.

Definition envelope (m : EncryptedServerMessage) : EncryptionService.Envelope :=
  {| EncryptionService.iv := iv m;
     EncryptionService.ciphertext := ciphertext m;
     EncryptionService.tag := tag m |}.

Definition communityPost `{JsDate} (communityId : string)
    (m : EncryptedServerMessage) (content : string) : CommunityPost.t :=
  {| CommunityPost.id := id m;
     CommunityPost.community_id := communityId;
     CommunityPost.author_public_key := sender_id m;
     CommunityPost.content := content;
     CommunityPost.signature := "";
     CommunityPost.timestamp := Date_getTime (created_at m);
     CommunityPost.likes_count := 0;
     CommunityPost.reposts_count := 0;
     CommunityPost.is_liked_by_me := 0;
     CommunityPost.is_reposted_by_me := 0;
     CommunityPost.author_name := None;
     CommunityPost.is_moderated := 0 |}.

(** The secret under which one post is decrypted: the placeholder lookup
    of the sender's key draws [entropy]. *)
Definition sharedSecretFor `{NaCl} (seekerX25519SecretKey : bytes)
    (m : EncryptedServerMessage) (entropy : bytes) : bytes :=
  EncryptionService.deriveSharedSecret seekerX25519SecretKey
    (EncryptionService.fetchRecipientX25519PublicKey (sender_id m) entropy).

(** One iteration of the loop over missedPosts: the try block and its
    catch, which logs the error and goes on. The result is the cache after
    the iteration and whether the catch ran. *)
Definition syncPost `{NaCl, AesGcm, js_base64.JsBase64, TextCodec, JsDate}
    (seekerX25519SecretKey : bytes) (communityId : string)
    (db : SQLiteService.Database) (item : EncryptedServerMessage * bytes)
    : SQLiteService.Database * bool :=
  let '(encryptedPost, entropy) := item in
  if is_encrypted encryptedPost then
    let sharedSecret := sharedSecretFor seekerX25519SecretKey encryptedPost entropy in
    match EncryptionService.decrypt sharedSecret (envelope encryptedPost) with
    | inr decryptedContent =>
        (SQLiteService.insertCommunityPost
           (communityPost communityId encryptedPost decryptedContent) db, false)
    | inl decryptionError => (db, true)
    end
  else
    match content encryptedPost with
    | Some c =>
        (SQLiteService.insertCommunityPost (communityPost communityId encryptedPost c) db,
         false)
    | None => (db, true)   (* content TEXT NOT NULL rejects the row *)
    end.

(** for (const encryptedPost of missedPosts) { ... } *)
Definition syncPosts `{NaCl, AesGcm, js_base64.JsBase64, TextCodec, JsDate}
    (seekerX25519SecretKey : bytes) (communityId : string)
    (missedPosts : list (EncryptedServerMessage * bytes))
    (db : SQLiteService.Database) : SQLiteService.Database :=
  foldl (fun db item => (syncPost seekerX25519SecretKey communityId db item).1)
        db missedPosts.

End BackgroundSyncTask.

(** * RootNavigator: the socket across app states *)

Module RootNavigator.

(** handleAppStateChange(nextAppState); [userId] is the address of the
    logged-in user in the store, absent when logged out. *)
Definition handleAppStateChange (userId : option string) (nextAppState : string)
    (st : SocketService.t) : SocketService.t * list SocketService.Effect :=
  match userId with
  | Some u =>
      if truthy userId then
        if String.eqb nextAppState "background" || String.eqb nextAppState "inactive"
        then SocketService.pauseConnection st
        else if String.eqb nextAppState "active"
        then SocketService.resumeConnection u st
        else (st, [])
      else (st, [])
  | None => (st, [])
  end.

End RootNavigator.

(** * CommunityFeedScreen: a post received while the feed is shown *)

Module CommunityFeedScreen.

(** { ...p, author_name: name } *)
Definition with_author_name (name : string) (p : CommunityPost.t) : CommunityPost.t :=
  {| CommunityPost.id := CommunityPost.id p;
     CommunityPost.community_id := CommunityPost.community_id p;
     CommunityPost.author_public_key := CommunityPost.author_public_key p;
     CommunityPost.content := CommunityPost.content p;
     CommunityPost.signature := CommunityPost.signature p;
     CommunityPost.timestamp := CommunityPost.timestamp p;
     CommunityPost.likes_count := CommunityPost.likes_count p;
     CommunityPost.reposts_count := CommunityPost.reposts_count p;
     CommunityPost.is_liked_by_me := CommunityPost.is_liked_by_me p;
     CommunityPost.is_reposted_by_me := CommunityPost.is_reposted_by_me p;
     CommunityPost.author_name := Some name;
     CommunityPost.is_moderated := CommunityPost.is_moderated p |}.

(** post.author_public_key.slice(0, 6) + '...' *)
Definition shortKey (post : CommunityPost.t) : string :=
  String.substring 0 6 (CommunityPost.author_public_key post) +:+ "...".

(** What the lookup of an author's display name comes to:
    findDisplayName resolves, and [name] is name?.name of its result (absent
    when the result is null or has no name), or the lookup, or the PublicKey
    constructor before it, throws. *)
Inductive NameLookup :=
| Resolves (name : option string)
| Throws.

(** prevPosts.map(p => p.id === post.id ? { ...p, author_name: name } : p) *)
Definition setAuthorName (postId name : string) (posts : list CommunityPost.t)
    : list CommunityPost.t :=
  (fun p => if decide (CommunityPost.id p = postId) then with_author_name name p else p)
    <$> posts.

(** One iteration of the loop of resolveAuthorNames, for [post].
    [resolving] is resolvingNames[post.author_public_key] as the callback
    sees it. The name found, or the shortened key when none is found, is set
    on the shown posts of that id and the post is written to the cache with
    it; when the lookup throws, the shortened key is set on the shown posts
    and the cache is left alone. *)
Definition resolveAuthorName (post : CommunityPost.t) (resolving : bool)
    (lookup : NameLookup) (posts : list CommunityPost.t) (db : SQLiteService.Database)
    : list CommunityPost.t * SQLiteService.Database :=
  if negb (truthy (CommunityPost.author_name post)) && negb resolving then
    match lookup with
    | Resolves name =>
        let resolvedName := if truthy name then default "" name else shortKey post in
        (setAuthorName (CommunityPost.id post) resolvedName posts,
         SQLiteService.insertCommunityPost (with_author_name resolvedName post) db)
    | Throws =>
        (setAuthorName (CommunityPost.id post) (shortKey post) posts, db)
    end
  else (posts, db).

(** handleCommunityPostReceived(receivedPost): the update of the posts the
    screen shows, the insert into the cache, and, once the insert is done,
    resolveAuthorNames([receivedPost]). The effect of the screen that calls
    resolveAuthorNames for all shown posts whenever the list changes is a
    step of its own and not part of the handler. *)
Definition handleCommunityPostReceived (receivedPost : CommunityPost.t)
    (resolving : bool) (lookup : NameLookup)
    (posts : list CommunityPost.t) (db : SQLiteService.Database)
    : list CommunityPost.t * SQLiteService.Database :=
  let posts :=
    if bool_decide (Exists (fun p => CommunityPost.id p = CommunityPost.id receivedPost)
                      posts)
    then posts
    else receivedPost :: posts in
  let db := SQLiteService.insertCommunityPost receivedPost db in
  resolveAuthorName receivedPost resolving lookup posts db.

(** The loop of fetchCommunityAndPosts over the posts the server returned:
    for (const post of remotePosts) await SQLiteService.insertCommunityPost(post) *)
Definition storeRemotePosts (remotePosts : list CommunityPost.t)
    (db : SQLiteService.Database) : SQLiteService.Database :=
  foldl (fun db post => SQLiteService.insertCommunityPost post db) db remotePosts.

End CommunityFeedScreen.

(** * Reference implementations of the library interfaces

    Small implementations that satisfy the laws above: they show that the
    laws are consistent, and the code can be run on them. *)

Module Reference.

(** ** Diffie-Hellman in the multiplicative group modulo 251 *)

Definition q : Z := 251.
Definition g : Z := 6.

Definition num (b : bytes) : Z :=
  foldl (fun acc x => (acc * 256 + Z.of_N (Byte.to_N x)) mod q)%Z 0%Z b.

Definition one_byte (x : Z) : bytes :=
  match Byte.of_N (Z.to_N x) with
  | Some b => [b]
  | None => []
  end.

#[export] Instance ref_nacl : NaCl := {|
  scalarMult n p := one_byte ((num p ^ num n) mod q);
  scalarMult_base n := one_byte ((g ^ num n) mod q);
  hsalsa20 s := s ++ s;
|}.

(** ** Codecs: a byte is a character *)

#[export] Instance ref_js_base64 : js_base64.JsBase64 := {|
  js_base64.encode b := String.string_of_list_byte b;
  js_base64.decode s := s;
|}.

#[export] Instance ref_text_codec : TextCodec := {|
  TextEncoder_encode s := String.list_byte_of_string s;
  TextDecoder_decode b := String.string_of_list_byte b;
|}.

(** ** A one-byte stream cipher with a 16-byte checksum *)

Definition xor_bits
    (a b : bool * (bool * (bool * (bool * (bool * (bool * (bool * bool)))))))
    : bool * (bool * (bool * (bool * (bool * (bool * (bool * bool)))))) :=
  let '(a0, (a1, (a2, (a3, (a4, (a5, (a6, a7))))))) := a in
  let '(b0, (b1, (b2, (b3, (b4, (b5, (b6, b7))))))) := b in
  (xorb a0 b0, (xorb a1 b1, (xorb a2 b2, (xorb a3 b3,
    (xorb a4 b4, (xorb a5 b5, (xorb a6 b6, xorb a7 b7))))))).

Definition xor_byte (a b : byte) : byte :=
  Byte.of_bits (xor_bits (Byte.to_bits a) (Byte.to_bits b)).

Definition pad (key iv : bytes) : byte :=
  xor_byte (default x00 (head key)) (default x00 (head iv)).

#[export] Instance ref_aes_gcm : AesGcm := {|
  gctr key iv d := xor_byte (pad key iv) <$> d;
  gcm_tag key iv c := take 16 (reverse c ++ key ++ replicate 16 x00);
|}.

#[export] Instance ref_js_date : JsDate := {|
  Date_getTime s := Z.of_nat (String.length s);
|}.

End Reference.


(** * Example data *)

Module Sample.
Import Reference.

Definition secret : bytes := replicate 32 x2a.
Definition nonce : bytes := replicate 12 x07.

(** encrypt(secret, "gm") on the reference implementations, and the same
    envelope with another 16-byte tag. *)
Definition sealed : EncryptionService.Envelope :=
  {| EncryptionService.iv := js_base64.encode nonce;
     EncryptionService.ciphertext := js_base64.encode [x4a; x40];
     EncryptionService.tag :=
       js_base64.encode ([x40; x4a] ++ replicate 14 x2a) |}.

Definition tampered : EncryptionService.Envelope :=
  EncryptionService.with_tag (js_base64.encode (replicate 16 xff)) sealed.

(** A missed post that carries the tampered envelope, and a cache that
    already holds one post. *)
Definition missed : BackgroundSyncTask.EncryptedServerMessage :=
  {| BackgroundSyncTask.id := "p2";
     BackgroundSyncTask.sender_id := "alice";
     BackgroundSyncTask.created_at := "2024-01-01T00:00:00Z";
     BackgroundSyncTask.is_encrypted := true;
     BackgroundSyncTask.iv := EncryptionService.iv tampered;
     BackgroundSyncTask.ciphertext := EncryptionService.ciphertext tampered;
     BackgroundSyncTask.tag := EncryptionService.tag tampered;
     BackgroundSyncTask.content := None |}.

Definition post1 : CommunityPost.t :=
  {| CommunityPost.id := "p1";
     CommunityPost.community_id := "abc";
     CommunityPost.author_public_key := "bob";
     CommunityPost.content := "hello";
     CommunityPost.signature := "sig";
     CommunityPost.timestamp := 1;
     CommunityPost.likes_count := 0;
     CommunityPost.reposts_count := 0;
     CommunityPost.is_liked_by_me := 0;
     CommunityPost.is_reposted_by_me := 0;
     CommunityPost.author_name := None;
     CommunityPost.is_moderated := 0 |}.

Definition cache1 : SQLiteService.Database :=
  SQLiteService.insertCommunityPost post1 SQLiteService.empty.

Definition post1_liked : CommunityPost.t :=
  SQLiteService.set_engagement 3 1 1 0 post1.

Definition community1 : Community.t :=
  {| Community.id := "abc";
     Community.creator_public_key := "bob";
     Community.name := "builders";
     Community.type := Community.public;
     Community.gating_mint := None;
     Community.created_at := 1;
     Community.is_member := 0 |}.

Definition cache2 : SQLiteService.Database :=
  SQLiteService.insertCommunityPost post1
    (SQLiteService.insertCommunity community1 SQLiteService.empty).

Definition community1_joined : Community.t :=
  {| Community.id := "abc";
     Community.creator_public_key := "bob";
     Community.name := "builders";
     Community.type := Community.public;
     Community.gating_mint := None;
     Community.created_at := 1;
     Community.is_member := 1 |}.

(** The service after initSocket("user1") and the connect event, and
    after it then joined the feed of community "abc". *)
Definition online : SocketService.t :=
  (SocketService.transport_connected "user1"
     (SocketService.initSocket "user1" SocketService.initial).1).1.

Definition joined : SocketService.t :=
  (SocketService.joinCommunityFeed "abc" online).1.

(** An encrypted message and a plain message, both sent by "user1". *)
Definition own_encrypted : SocketService.Message.t :=
  {| SocketService.Message.id := Some "m1";
     SocketService.Message.chat_room_id := Some "chat1";
     SocketService.Message.iv := Some "aXY=";
     SocketService.Message.ciphertext := Some "Y3Q=";
     SocketService.Message.tag := Some "dGFn";
     SocketService.Message.senderPublicKey := Some "user1";
     SocketService.Message.sender_id := Some "user1";
     SocketService.Message.created_at := Some "2024-01-01T00:00:00Z" |}.

Definition own_plain : SocketService.Message.t :=
  {| SocketService.Message.id := Some "m2";
     SocketService.Message.chat_room_id := Some "chat1";
     SocketService.Message.iv := None;
     SocketService.Message.ciphertext := None;
     SocketService.Message.tag := None;
     SocketService.Message.senderPublicKey := None;
     SocketService.Message.sender_id := Some "user1";
     SocketService.Message.created_at := Some "2024-01-01T00:00:00Z" |}.

Definition entropy1 : bytes := replicate 32 x11.
Definition entropy2 : bytes := replicate 32 x22.

Definition seekerSecretKey : bytes := replicate 32 x01.
Definition senderEntropy : bytes := replicate 32 x02.

End Sample.

(** * Properties *)

(** ** The reference implementations satisfy the laws *)

Lemma Reference_num_range (b : bytes) : (0 <= Reference.num b < Reference.q)%Z.
Proof.
  unfold Reference.num.
  assert (forall acc, (0 <= acc < Reference.q)%Z ->
            (0 <= foldl (fun acc x => (acc * 256 + Z.of_N (Byte.to_N x))
                                       `mod` Reference.q)%Z acc b < Reference.q)%Z)
    as Hgen.
  { induction b as [|x b IH]; intros acc Hacc; simpl; [exact Hacc|].
    apply IH. apply Z.mod_pos_bound. reflexivity. }
  apply Hgen. unfold Reference.q. lia.
Qed.

Lemma Reference_num_one_byte (x : Z) :
  (0 <= x < Reference.q)%Z -> Reference.num (Reference.one_byte x) = x.
Proof.
  intros Hx. unfold Reference.one_byte.
  pose proof (Byte.to_of_N_option_map (Z.to_N x)) as Hm.
  destruct (Byte.of_N (Z.to_N x)) as [b|] eqn:Hb; simpl in Hm.
  - destruct (Z.to_N x <=? 255)%N; [|discriminate].
    injection Hm as Hm. unfold Reference.num. simpl. rewrite Hm.
    rewrite Z2N.id by lia. apply Z.mod_small. exact Hx.
  - destruct (Z.to_N x <=? 255)%N eqn:Hle; [discriminate|].
    apply N.leb_gt in Hle. unfold Reference.q in Hx. lia.
Qed.

Lemma Reference_nacl_laws : NaClLaws Reference.ref_nacl.
Proof.
  constructor. intros a b _ _. simpl.
  assert (forall n m : bytes,
            ((Reference.num (Reference.one_byte
                (Reference.g ^ Reference.num m `mod` Reference.q))
              ^ Reference.num n) `mod` Reference.q
             = (Reference.g ^ (Reference.num m * Reference.num n)) `mod` Reference.q)%Z)
    as Hpow.
  { intros n m. rewrite Reference_num_one_byte
      by (apply Z.mod_pos_bound; reflexivity).
    rewrite Z.mod_pow_l. rewrite Z.pow_mul_r; [reflexivity| |];
      apply Reference_num_range. }
  rewrite !Hpow. f_equal. f_equal. f_equal. apply Z.mul_comm.
Qed.

Lemma Reference_xor_byte_involutive (k d : byte) :
  Reference.xor_byte k (Reference.xor_byte k d) = d.
Proof.
  unfold Reference.xor_byte. rewrite Byte.to_bits_of_bits.
  rewrite <- (Byte.of_bits_to_bits d) at 2. f_equal.
  destruct (Byte.to_bits k) as (k0 & k1 & k2 & k3 & k4 & k5 & k6 & k7).
  destruct (Byte.to_bits d) as (d0 & d1 & d2 & d3 & d4 & d5 & d6 & d7).
  simpl. rewrite <- !xorb_assoc, !xorb_nilpotent, !xorb_false_l. reflexivity.
Qed.

Lemma Reference_aes_gcm_laws : AesGcmLaws Reference.ref_aes_gcm.
Proof.
  constructor; simpl.
  - intros k iv d _ _. apply length_fmap.
  - intros k iv d _ _. rewrite <- list_fmap_compose.
    rewrite <- (list_fmap_id d) at 2. apply list_fmap_ext.
    intros i x _. apply Reference_xor_byte_involutive.
  - intros k iv c _ _. rewrite length_take, !length_app.
    simpl length. lia.
Qed.

(** ** CryptoEngine *)

Lemma importKey_32 (S : bytes) : length S = 32 -> subtle.importKey S = inr S.
Proof. intros HS. unfold subtle.importKey. rewrite HS. reflexivity. Qed.

Lemma take_tag_split (c t : bytes) :
  length t = subtle.tagLength ->
  take (length (c ++ t) - subtle.tagLength) (c ++ t) = c
  /\ drop (length (c ++ t) - subtle.tagLength) (c ++ t) = t.
Proof.
  intros Ht. rewrite length_app, Ht.
  replace (length c + subtle.tagLength - subtle.tagLength) with (length c) by lia.
  split; [apply take_app_length | apply drop_app_length].
Qed.

(** What encrypt returns for a 32-byte secret: the ciphertext and the tag of
    the AES-GCM output, each Base64-encoded. *)
Lemma encrypt_32 {G : AesGcm} {B : js_base64.JsBase64} {T : TextCodec}
    (HG : AesGcmLaws G) (S : bytes) (P : string) (nonce : bytes) :
  length S = 32 -> length nonce = 12 ->
  EncryptionService.encrypt S P nonce =
    inr {| EncryptionService.iv := js_base64.encode nonce;
           EncryptionService.ciphertext :=
             js_base64.encode (gctr S nonce (TextEncoder_encode P));
           EncryptionService.tag :=
             js_base64.encode (gcm_tag S nonce (gctr S nonce (TextEncoder_encode P))) |}.
Proof.
  intros HS Hn. unfold EncryptionService.encrypt. rewrite (importKey_32 S HS).
  cbv zeta. unfold subtle.encrypt.
  set (c := gctr S nonce (TextEncoder_encode P)).
  pose proof (gcm_tag_length S nonce c HS Hn) as Ht.
  destruct (take_tag_split c (gcm_tag S nonce c) Ht) as [Htake Hdrop].
  rewrite Htake, Hdrop.
  replace (length (c ++ gcm_tag S nonce c) <? subtle.tagLength) with false.
  - rewrite take_ge by (rewrite Ht; reflexivity). reflexivity.
  - symmetry. apply Nat.ltb_ge. rewrite length_app, Ht. unfold subtle.tagLength. lia.
Qed.

(** Any failure of decrypt leaves the cache as it was: the catch of the
    iteration runs instead of the insert. *)
Lemma syncPost_decrypt_failure
    {L : NaCl} {G : AesGcm} {B : js_base64.JsBase64} {T : TextCodec} {D : JsDate}
    (seekerSk : bytes) (communityId : string) (db : SQLiteService.Database)
    (m : BackgroundSyncTask.EncryptedServerMessage) (entropy : bytes)
    (err : subtle.CryptoError) :
  BackgroundSyncTask.is_encrypted m = true ->
  EncryptionService.decrypt (BackgroundSyncTask.sharedSecretFor seekerSk m entropy)
    (BackgroundSyncTask.envelope m) = inl err ->
  BackgroundSyncTask.syncPost seekerSk communityId db (m, entropy) = (db, true).
Proof.
  intros Henc Hdec. unfold BackgroundSyncTask.syncPost. rewrite Henc, Hdec. reflexivity.
Qed.

(** C8. For all valid key pairs A and B, the secret derived from A's private
    key and B's public key equals the secret derived from B's private key and
    A's public key. A key pair is valid when it is the pair
    nacl.box.keyPair.fromSecretKey gives for its secret key. The proof rests
    on the Diffie-Hellman law of X25519. *)
Theorem deriveSharedSecret_commutative {L : NaCl} (HL : NaClLaws L)
    (A B : nacl.BoxKeyPair) :
  nacl.box_keyPair_fromSecretKey (nacl.secretKey A) = Some A ->
  nacl.box_keyPair_fromSecretKey (nacl.secretKey B) = Some B ->
  EncryptionService.deriveSharedSecret (nacl.secretKey A) (nacl.publicKey B)
  = EncryptionService.deriveSharedSecret (nacl.secretKey B) (nacl.publicKey A).
Proof.
  unfold nacl.box_keyPair_fromSecretKey. intros HA HB.
  destruct (length (nacl.secretKey A) =? 32) eqn:HlA; [|discriminate].
  destruct (length (nacl.secretKey B) =? 32) eqn:HlB; [|discriminate].
  apply Nat.eqb_eq in HlA, HlB.
  injection HA as HA. injection HB as HB.
  apply (f_equal nacl.publicKey) in HA, HB. simpl in HA, HB.
  unfold EncryptionService.deriveSharedSecret, nacl.box_before.
  rewrite <- HA, <- HB. f_equal. apply scalarMult_comm; assumption.
Qed.

Section deriveSharedSecret_example.
Import Reference.

Lemma deriveSharedSecret_commutative_witness :
let A := nacl.box_keyPair (replicate 32 x01) in
let B := nacl.box_keyPair (replicate 32 x02) in
nacl.box_keyPair_fromSecretKey (nacl.secretKey A) = Some A
/\ nacl.box_keyPair_fromSecretKey (nacl.secretKey B) = Some B
/\ EncryptionService.deriveSharedSecret (nacl.secretKey A) (nacl.publicKey B)
   = EncryptionService.deriveSharedSecret (nacl.secretKey B) (nacl.publicKey A).
Proof.
intros A B.
assert (nacl.box_keyPair_fromSecretKey (nacl.secretKey A) = Some A) as HA
  by reflexivity.
assert (nacl.box_keyPair_fromSecretKey (nacl.secretKey B) = Some B) as HB
  by reflexivity.
split; [exact HA|]. split; [exact HB|].
exact (deriveSharedSecret_commutative Reference_nacl_laws A B HA HB).
Defined.

End deriveSharedSecret_example.

(** *** What decrypt does with the strings js-base64 gives it *)

(** The buffer decrypt allocates has length 0. *)
Lemma fullEncrypted_empty (ciphertext tag : string) :
  Uint8Array.new (Uint8Array.plus (Uint8Array.byteLength ciphertext)
                                  (Uint8Array.byteLength tag)) = [].
Proof. reflexivity. Qed.

(** Writing a string into the empty buffer: only the empty string fits. *)
Lemma set_empty_fits (offset : option nat) :
  default 0 offset = 0 -> Uint8Array.set [] "" offset = Some [].
Proof. intros Ho. unfold Uint8Array.set. rewrite Ho. reflexivity. Qed.

Lemma set_empty_overflow (source : string) (offset : option nat) :
  source <> ""%string -> Uint8Array.set [] source offset = None.
Proof.
  intros Hs. unfold Uint8Array.set. destruct source as [|c source]; [contradiction|].
  reflexivity.
Qed.

(** decrypt, case by case: a RangeError at the first write that does not
    fit; with two empty strings, the error of importKey for a key of the
    wrong size; and with a key that imports, the TypeError of
    crypto.subtle.decrypt for the iv, which is a string. *)
Lemma decrypt_cases {G : AesGcm} {B : js_base64.JsBase64} {T : TextCodec}
    (S : bytes) (e : EncryptionService.Envelope) :
  EncryptionService.decrypt S e
  = if decide (js_base64.decode (EncryptionService.ciphertext e) = ""%string
               /\ js_base64.decode (EncryptionService.tag e) = ""%string)
    then match subtle.importKey S with
         | inl err => inl err
         | inr _ => inl subtle.TypeError
         end
    else inl subtle.RangeError.
Proof.
  unfold EncryptionService.decrypt. cbv zeta. rewrite fullEncrypted_empty.
  destruct (decide (js_base64.decode (EncryptionService.ciphertext e) = ""%string))
    as [Hc|Hc].
  - rewrite Hc. rewrite (set_empty_fits (Some 0)) by reflexivity.
    destruct (decide (js_base64.decode (EncryptionService.tag e) = ""%string))
      as [Ht|Ht].
    + rewrite Ht. rewrite set_empty_fits by reflexivity.
      rewrite decide_True by (split; reflexivity).
      destruct (subtle.importKey S) as [err|key]; reflexivity.
    + rewrite (set_empty_overflow _ _ Ht). rewrite decide_False by tauto. reflexivity.
  - rewrite (set_empty_overflow _ _ Hc). rewrite decide_False by tauto. reflexivity.
Qed.

Lemma importKey_error (S : bytes) (err : subtle.CryptoError) :
  subtle.importKey S = inl err -> err = subtle.DataError.
Proof.
  unfold subtle.importKey.
  destruct ((length S =? 16) || (length S =? 24) || (length S =? 32));
    intros Heq; [discriminate|]. injection Heq as <-. reflexivity.
Qed.

(** decrypt returns no plaintext, whatever the secret and the envelope, and
    its error is never the failure of the tag check. *)
Lemma decrypt_throws {G : AesGcm} {B : js_base64.JsBase64} {T : TextCodec}
    (S : bytes) (e : EncryptionService.Envelope) :
  exists err,
    EncryptionService.decrypt S e = inl err
    /\ err <> subtle.AuthenticationFailed.
Proof.
  rewrite decrypt_cases. destruct (decide _) as [_|_].
  - destruct (subtle.importKey S) as [err|key] eqn:Hk.
    + exists err. split; [reflexivity|].
      rewrite (importKey_error S err Hk). discriminate.
    + exists subtle.TypeError. split; [reflexivity|discriminate].
  - exists subtle.RangeError. split; [reflexivity|discriminate].
Qed.

(** C2, on the code. For every 32-byte secret S, every 12-byte nonce and
    every payload P, encrypt returns an envelope that carries the nonce, the
    ciphertext and the 16-byte tag of the AES-GCM output, each passed through
    js-base64's encode; and decrypt of that envelope under S does not return
    P: it throws. The error is a RangeError whenever js-base64's decode gives
    a non-empty string for the tag field, where the write of that string into
    the zero-length buffer fails. So decrypt(S, encrypt(S, P)) is P for no
    secret and no payload. *)
Theorem decrypt_of_encrypt_throws
    {G : AesGcm} {B : js_base64.JsBase64} {T : TextCodec}
    (HG : AesGcmLaws G) (S : bytes) (P : string) (nonce : bytes) :
  length S = 32 ->
  length nonce = 12 ->
  let c := gctr S nonce (TextEncoder_encode P) in
  let e := {| EncryptionService.iv := js_base64.encode nonce;
              EncryptionService.ciphertext := js_base64.encode c;
              EncryptionService.tag := js_base64.encode (gcm_tag S nonce c) |} in
  EncryptionService.encrypt S P nonce = inr e
  /\ c ++ gcm_tag S nonce c = subtle.encrypt S nonce (TextEncoder_encode P)
  /\ length (gcm_tag S nonce c) = 16
  /\ (exists err, EncryptionService.decrypt S e = inl err)
  /\ EncryptionService.decrypt S e <> inr P
  /\ (js_base64.decode (EncryptionService.tag e) <> ""%string ->
      EncryptionService.decrypt S e = inl subtle.RangeError).
Proof.
  intros HS Hn c e.
  split; [apply (encrypt_32 HG S P nonce HS Hn)|].
  split; [reflexivity|].
  split; [apply gcm_tag_length; assumption|].
  destruct (decrypt_throws S e) as (err & Herr & _).
  split; [exists err; exact Herr|].
  split; [rewrite Herr; discriminate|].
  intros Htag. rewrite decrypt_cases. rewrite decide_False by tauto. reflexivity.
Qed.

Section decrypt_encrypt_example.
Import Reference.

Lemma decrypt_of_encrypt_throws_witness :
  length Sample.secret = 32
  /\ length Sample.nonce = 12
  /\ EncryptionService.encrypt Sample.secret "gm" Sample.nonce = inr Sample.sealed
  /\ EncryptionService.decrypt Sample.secret Sample.sealed <> inr "gm"%string
  /\ EncryptionService.decrypt Sample.secret Sample.sealed = inl subtle.RangeError.
Proof.
  assert (length Sample.secret = 32) as HS by reflexivity.
  assert (length Sample.nonce = 12) as Hn by reflexivity.
  split; [exact HS|]. split; [exact Hn|].
  destruct (decrypt_of_encrypt_throws Reference_aes_gcm_laws
              Sample.secret "gm" Sample.nonce HS Hn)
    as (Henc & _ & _ & _ & Hne & Hrange).
  split; [exact Henc|]. split; [exact Hne|].
  apply Hrange. discriminate.
Defined.

(** The envelope of "gm" under the example secret, and what decrypt makes
  of it and of the same envelope with another tag. *)
Example encrypt_gm :
EncryptionService.encrypt Sample.secret "gm" Sample.nonce = inr Sample.sealed.
Proof. vm_compute. reflexivity. Qed.

Example decrypt_sealed :
EncryptionService.decrypt Sample.secret Sample.sealed = inl subtle.RangeError.
Proof. vm_compute. reflexivity. Qed.

Example decrypt_tampered :
EncryptionService.decrypt Sample.secret Sample.tampered = inl subtle.RangeError.
Proof. vm_compute. reflexivity. Qed.

End decrypt_encrypt_example.

(** C1, on the code. For every secret and every envelope, one whose tag
    does not verify included, decrypt returns no plaintext: it ends in an
    error. The error is never the failure of the tag check, which decrypt
    does not reach: it is a RangeError whenever js-base64's decode gives a
    non-empty string for the ciphertext or for the tag, and a DataError or a
    TypeError otherwise. In the catch-up loop the iteration of an encrypted
    post therefore runs its catch: the cache is as it was, and the rest of
    the batch is processed on the unchanged cache. *)
Theorem decrypt_throws_before_tag_check
    {L : NaCl} {G : AesGcm} {B : js_base64.JsBase64} {T : TextCodec} {D : JsDate}
    (S : bytes) (e : EncryptionService.Envelope) :
  (exists err,
     EncryptionService.decrypt S e = inl err
     /\ err <> subtle.AuthenticationFailed)
  /\ (js_base64.decode (EncryptionService.ciphertext e) <> ""%string
      \/ js_base64.decode (EncryptionService.tag e) <> ""%string ->
      EncryptionService.decrypt S e = inl subtle.RangeError)
  /\ (forall tag',
        js_base64.decode tag' <> ""%string ->
        EncryptionService.decrypt S (EncryptionService.with_tag tag' e)
        = inl subtle.RangeError)
  /\ (forall seekerSk communityId db m entropy rest,
        BackgroundSyncTask.is_encrypted m = true ->
        BackgroundSyncTask.syncPost seekerSk communityId db (m, entropy) = (db, true)
        /\ BackgroundSyncTask.syncPosts seekerSk communityId ((m, entropy) :: rest) db
           = BackgroundSyncTask.syncPosts seekerSk communityId rest db).
Proof.
  split; [apply decrypt_throws|]. split; [|split].
  - intros Hne. rewrite decrypt_cases. rewrite decide_False by tauto. reflexivity.
  - intros tag' Hne. rewrite decrypt_cases. simpl.
    rewrite decide_False by tauto. reflexivity.
  - intros seekerSk communityId db m entropy rest Henc.
    assert (BackgroundSyncTask.syncPost seekerSk communityId db (m, entropy) = (db, true))
      as Hstep.
    { destruct (decrypt_throws
                  (BackgroundSyncTask.sharedSecretFor seekerSk m entropy)
                  (BackgroundSyncTask.envelope m)) as (err & Herr & _).
      exact (syncPost_decrypt_failure seekerSk communityId db m entropy err Henc Herr). }
    split; [exact Hstep|].
    unfold BackgroundSyncTask.syncPosts. cbn [foldl]. rewrite Hstep. reflexivity.
Qed.

Section decrypt_fails_closed_example.
Import Reference.

(** The catch-up loop on the example batch: the post with the tampered
  envelope is skipped and the cache still holds exactly the post it held. *)
Example syncPosts_tampered :
BackgroundSyncTask.syncPosts Sample.seekerSecretKey "abc"
  [(Sample.missed, Sample.senderEntropy)] Sample.cache1
= Sample.cache1.
Proof. vm_compute. reflexivity. Qed.

End decrypt_fails_closed_example.

(** ** LocalCache *)

(** Rows of a table with a key column: what deleting the rows of one key and
    appending a row does. *)
Section keyed_rows.
Context {A : Type} (key : A -> string).

Lemma filter_key_ne_snoc (k : string) (l : list A) (r : A) :
  key r = k ->
  filter (fun x => key x <> k) (l ++ [r]) = filter (fun x => key x <> k) l.
Proof.
  intros Hr. rewrite filter_app, filter_cons_False by (intros Hne; exact (Hne Hr)).
  rewrite filter_nil. apply app_nil_r.
Qed.

Lemma filter_key_ne_idemp (k : string) (l : list A) :
  filter (fun x => key x <> k) (filter (fun x => key x <> k) l)
  = filter (fun x => key x <> k) l.
Proof.
  induction l as [|x l IH]; [reflexivity|].
  destruct (decide (key x = k)) as [He|Hne].
  - rewrite (filter_cons_False _ x l) by (intros Hn; exact (Hn He)). exact IH.
  - rewrite (filter_cons_True _ x l) by exact Hne.
    rewrite filter_cons_True by exact Hne. f_equal. exact IH.
Qed.

Lemma filter_key_eq_none (k : string) (l : list A) :
  filter (fun x => key x = k) (filter (fun x => key x <> k) l) = [].
Proof.
  induction l as [|x l IH]; [reflexivity|].
  destruct (decide (key x = k)) as [He|Hne].
  - rewrite (filter_cons_False _ x l) by (intros Hn; exact (Hn He)). exact IH.
  - rewrite (filter_cons_True _ x l) by exact Hne.
    rewrite filter_cons_False by exact Hne. exact IH.
Qed.

Lemma filter_key_eq_upsert (r : A) (l : list A) :
  filter (fun x => key x = key r) (filter (fun x => key x <> key r) l ++ [r]) = [r].
Proof.
  rewrite filter_app, filter_key_eq_none.
  rewrite filter_cons_True by reflexivity. reflexivity.
Qed.

Lemma filter_key_ne_update (k : string) (f : A -> A) (l : list A) :
  (forall x, key (f x) = key x) ->
  filter (fun x => key x <> k) ((fun x => if decide (key x = k) then f x else x) <$> l)
  = filter (fun x => key x <> k) l.
Proof.
  intros Hf. induction l as [|x l IH]; [reflexivity|].
  rewrite fmap_cons. destruct (decide (key x = k)) as [He|Hne].
  - rewrite filter_cons_False by (rewrite Hf; intros Hn; exact (Hn He)).
    rewrite (filter_cons_False _ x l) by (intros Hn; exact (Hn He)). exact IH.
  - rewrite filter_cons_True by exact Hne.
    rewrite (filter_cons_True _ x l) by exact Hne. f_equal. exact IH.
Qed.

Lemma elem_of_filter_key_ne (k : string) (l : list A) (x : A) :
  x ∈ filter (fun y => key y <> k) l -> x ∈ l /\ key x <> k.
Proof. intros Hx. apply list_elem_of_filter in Hx. tauto. Qed.

Lemma NoDup_filter_key_ne (k : string) (l : list A) :
  NoDup (key <$> l) -> NoDup (key <$> filter (fun x => key x <> k) l).
Proof.
  induction l as [|x l IH]; [intros _; constructor|].
  rewrite fmap_cons. intros Hnd. apply NoDup_cons in Hnd as [Hx Hl].
  destruct (decide (key x = k)) as [He|Hne].
  - rewrite filter_cons_False by (intros Hn; exact (Hn He)). apply IH, Hl.
  - rewrite filter_cons_True by exact Hne. rewrite fmap_cons.
    apply NoDup_cons. split; [|apply IH, Hl].
    intros Hin. apply Hx. apply list_elem_of_fmap in Hin as (y & Hy & Hyl).
    apply list_elem_of_fmap. exists y. split; [exact Hy|].
    apply (elem_of_filter_key_ne k l y Hyl).
Qed.

(** After the upsert the key column has no duplicate. *)
Lemma NoDup_upsert (r : A) (l : list A) :
  NoDup (key <$> l) -> NoDup (key <$> (filter (fun x => key x <> key r) l ++ [r])).
Proof.
  intros Hnd. rewrite fmap_app. apply NoDup_app. split; [|split].
  - apply NoDup_filter_key_ne, Hnd.
  - intros k Hk Hr. simpl in Hr. apply list_elem_of_singleton in Hr. subst k.
    apply list_elem_of_fmap in Hk as (y & Hy & Hyl).
    apply elem_of_filter_key_ne in Hyl as [_ Hne]. apply Hne. symmetry. exact Hy.
  - simpl. apply NoDup_singleton.
Qed.

(** With unique keys, a present key has exactly one row, so deleting its
    rows removes one row. *)
Lemma length_filter_key_ne (k : string) (l : list A) :
  NoDup (key <$> l) -> k ∈ key <$> l ->
  S (length (filter (fun x => key x <> k) l)) = length l.
Proof.
  induction l as [|x l IH]; [intros _ Hin; inversion Hin|].
  rewrite fmap_cons. intros Hnd Hin. apply NoDup_cons in Hnd as [Hx Hl].
  destruct (decide (key x = k)) as [He|Hne].
  - rewrite filter_cons_False by (intros Hn; exact (Hn He)). simpl. f_equal.
    assert (filter (fun y => key y <> k) l = l) as ->; [|reflexivity].
    clear IH Hin Hl. induction l as [|y l IHl]; [reflexivity|].
    rewrite fmap_cons in Hx. apply not_elem_of_cons in Hx as [Hy Hx].
    rewrite filter_cons_True by congruence. f_equal. apply IHl, Hx.
  - rewrite filter_cons_True by exact Hne. simpl. f_equal. apply IH; [exact Hl|].
    apply elem_of_cons in Hin as [Hk|Hin]; [congruence|exact Hin].
Qed.

End keyed_rows.

Lemma set_engagement_id (l r lm rm : Z) (p : CommunityPost.t) :
  CommunityPost.id (SQLiteService.set_engagement l r lm rm p) = CommunityPost.id p.
Proof. reflexivity. Qed.

Lemma set_moderation_id (m : Z) (p : CommunityPost.t) :
  CommunityPost.id (SQLiteService.set_moderation m p) = CommunityPost.id p.
Proof. reflexivity. Qed.

(** A write on the post row [k] leaves the other rows and the communities
    table as they were. *)
Lemma post_write_other_rows (db : SQLiteService.Database) (w : SQLiteService.PostWrite)
    (k : string) :
  SQLiteService.post_write_id w = k ->
  filter (fun r => CommunityPost.id r <> k)
    (SQLiteService.community_posts (SQLiteService.post_write db w))
  = filter (fun r => CommunityPost.id r <> k) (SQLiteService.community_posts db)
  /\ SQLiteService.communities (SQLiteService.post_write db w)
     = SQLiteService.communities db.
Proof.
  intros <-. split; [|destruct w; reflexivity].
  destruct w as [post|postId l r lm rm|postId m|postId]; simpl.
  - rewrite (filter_key_ne_snoc CommunityPost.id) by reflexivity.
    apply (filter_key_ne_idemp CommunityPost.id).
  - apply (filter_key_ne_update CommunityPost.id). intros x. apply set_engagement_id.
  - apply (filter_key_ne_update CommunityPost.id). intros x. apply set_moderation_id.
  - apply (filter_key_ne_idemp CommunityPost.id).
Qed.

Lemma post_writes_other_rows (ws : list SQLiteService.PostWrite)
    (db : SQLiteService.Database) (k : string) :
  Forall (fun w => SQLiteService.post_write_id w = k) ws ->
  filter (fun r => CommunityPost.id r <> k)
    (SQLiteService.community_posts (foldl SQLiteService.post_write db ws))
  = filter (fun r => CommunityPost.id r <> k) (SQLiteService.community_posts db)
  /\ SQLiteService.communities (foldl SQLiteService.post_write db ws)
     = SQLiteService.communities db.
Proof.
  intros Hws. revert db. induction Hws as [|w ws Hw _ IH]; intros db; [split; reflexivity|].
  simpl. destruct (IH (SQLiteService.post_write db w)) as [IH1 IH2].
  destruct (post_write_other_rows db w k Hw) as [H1 H2].
  split; congruence.
Qed.

Lemma community_write_other_rows (db : SQLiteService.Database)
    (w : SQLiteService.CommunityWrite) (k : string) :
  SQLiteService.community_write_id w = k ->
  filter (fun r => Community.id r <> k)
    (SQLiteService.communities (SQLiteService.community_write db w))
  = filter (fun r => Community.id r <> k) (SQLiteService.communities db)
  /\ SQLiteService.community_posts (SQLiteService.community_write db w)
     = SQLiteService.community_posts db.
Proof.
  intros <-. split; [|destruct w; reflexivity].
  destruct w as [community|communityId m]; simpl.
  - rewrite (filter_key_ne_snoc Community.id) by reflexivity.
    apply (filter_key_ne_idemp Community.id).
  - apply (filter_key_ne_update Community.id
             communityId
             (fun r => {| Community.id := Community.id r;
                          Community.creator_public_key := Community.creator_public_key r;
                          Community.name := Community.name r;
                          Community.type := Community.type r;
                          Community.gating_mint := Community.gating_mint r;
                          Community.created_at := Community.created_at r;
                          Community.is_member := m |})).
    intros x. reflexivity.
Qed.

Lemma community_writes_other_rows (ws : list SQLiteService.CommunityWrite)
    (db : SQLiteService.Database) (k : string) :
  Forall (fun w => SQLiteService.community_write_id w = k) ws ->
  filter (fun r => Community.id r <> k)
    (SQLiteService.communities (foldl SQLiteService.community_write db ws))
  = filter (fun r => Community.id r <> k) (SQLiteService.communities db)
  /\ SQLiteService.community_posts (foldl SQLiteService.community_write db ws)
     = SQLiteService.community_posts db.
Proof.
  intros Hws. revert db. induction Hws as [|w ws Hw _ IH]; intros db; [split; reflexivity|].
  simpl. destruct (IH (SQLiteService.community_write db w)) as [IH1 IH2].
  destruct (community_write_other_rows db w k Hw) as [H1 H2].
  split; congruence.
Qed.

(** The primary keys stay unique under both upserts. *)
Lemma insertCommunityPost_primary_keys (post : CommunityPost.t)
    (db : SQLiteService.Database) :
  SQLiteService.primary_keys db ->
  SQLiteService.primary_keys (SQLiteService.insertCommunityPost post db).
Proof.
  intros [Hc Hp]. split; [exact Hc|]. simpl. apply (NoDup_upsert CommunityPost.id), Hp.
Qed.

Lemma insertCommunity_primary_keys (community : Community.t)
    (db : SQLiteService.Database) :
  SQLiteService.primary_keys db ->
  SQLiteService.primary_keys (SQLiteService.insertCommunity community db).
Proof.
  intros [Hc Hp]. split; [|exact Hp]. simpl. apply (NoDup_upsert Community.id), Hc.
Qed.

Lemma empty_primary_keys : SQLiteService.primary_keys SQLiteService.empty.
Proof. split; simpl; constructor. Qed.

(** Posts. The last upsert of a post, after an earlier upsert of the same
    id (with the same or other fields) and any further writes of that id,
    gives the cache that this upsert alone gives; the id then has exactly one
    row, the upserted one; the table has as many rows as after the first
    upsert; unique keys stay unique; and on a table with unique keys, the
    upsert of an id that is present does not change the number of rows. *)
Lemma insertCommunityPost_idempotent (db : SQLiteService.Database)
    (post post' : CommunityPost.t) (ws : list SQLiteService.PostWrite) :
  CommunityPost.id post' = CommunityPost.id post ->
  Forall (fun w => SQLiteService.post_write_id w = CommunityPost.id post) ws ->
  let once := SQLiteService.insertCommunityPost post db in
  let first := SQLiteService.insertCommunityPost post' db in
  let again :=
    SQLiteService.insertCommunityPost post (foldl SQLiteService.post_write first ws) in
  again = once
  /\ filter (fun r => CommunityPost.id r = CommunityPost.id post)
       (SQLiteService.community_posts again) = [post]
  /\ length (SQLiteService.community_posts again)
     = length (SQLiteService.community_posts first)
  /\ (SQLiteService.primary_keys db -> SQLiteService.primary_keys again)
  /\ (SQLiteService.primary_keys db ->
      CommunityPost.id post ∈ CommunityPost.id <$> SQLiteService.community_posts db ->
      length (SQLiteService.community_posts once)
      = length (SQLiteService.community_posts db)).
Proof.
  intros Hid Hws once first again.
  assert (again = once) as Heq.
  { subst again once. unfold SQLiteService.insertCommunityPost.
    destruct (post_writes_other_rows ws first (CommunityPost.id post) Hws) as [-> ->].
    subst first. simpl. rewrite Hid.
    rewrite (filter_key_ne_snoc CommunityPost.id) by exact Hid.
    rewrite (filter_key_ne_idemp CommunityPost.id). reflexivity. }
  split; [exact Heq|]. rewrite Heq. subst once first. simpl.
  split; [apply (filter_key_eq_upsert CommunityPost.id)|].
  split; [rewrite !length_app, Hid; reflexivity|].
  split; [apply insertCommunityPost_primary_keys|].
  intros [_ Hp] Hin. rewrite length_app. simpl.
  rewrite <- (length_filter_key_ne CommunityPost.id (CommunityPost.id post) _ Hp Hin). lia.
Qed.

(** Communities: the same for insertCommunity. *)
Lemma insertCommunity_idempotent (db : SQLiteService.Database)
    (community community' : Community.t) (ws : list SQLiteService.CommunityWrite) :
  Community.id community' = Community.id community ->
  Forall (fun w => SQLiteService.community_write_id w = Community.id community) ws ->
  let once := SQLiteService.insertCommunity community db in
  let first := SQLiteService.insertCommunity community' db in
  let again :=
    SQLiteService.insertCommunity community (foldl SQLiteService.community_write first ws) in
  again = once
  /\ filter (fun r => Community.id r = Community.id community)
       (SQLiteService.communities again) = [community]
  /\ length (SQLiteService.communities again) = length (SQLiteService.communities first)
  /\ (SQLiteService.primary_keys db -> SQLiteService.primary_keys again)
  /\ (SQLiteService.primary_keys db ->
      Community.id community ∈ Community.id <$> SQLiteService.communities db ->
      length (SQLiteService.communities once) = length (SQLiteService.communities db)).
Proof.
  intros Hid Hws once first again.
  assert (again = once) as Heq.
  { subst again once. unfold SQLiteService.insertCommunity.
    destruct (community_writes_other_rows ws first (Community.id community) Hws)
      as [-> ->].
    subst first. simpl. rewrite Hid.
    rewrite (filter_key_ne_snoc Community.id) by exact Hid.
    rewrite (filter_key_ne_idemp Community.id). reflexivity. }
  split; [exact Heq|]. rewrite Heq. subst once first. simpl.
  split; [apply (filter_key_eq_upsert Community.id)|].
  split; [rewrite !length_app, Hid; reflexivity|].
  split; [apply insertCommunity_primary_keys|].
  intros [Hc _] Hin. rewrite length_app. simpl.
  rewrite <- (length_filter_key_ne Community.id (Community.id community) _ Hc Hin). lia.
Qed.

(** C4. For every community record and every post record: the last upsert
    of the record, after an earlier upsert of the same id (with identical or
    updated fields) and any further writes of that id, leaves the cache in
    the state this upsert alone leaves it in; the id has exactly one row,
    holding the fields of the last upsert; the number of rows is the one
    after the first upsert; unique keys stay unique; and the upsert of an id
    that is present in a table with unique keys does not change the number
    of rows. *)
Theorem upsert_idempotent (db : SQLiteService.Database)
    (community community' : Community.t) (cws : list SQLiteService.CommunityWrite)
    (post post' : CommunityPost.t) (pws : list SQLiteService.PostWrite) :
  Community.id community' = Community.id community ->
  Forall (fun w => SQLiteService.community_write_id w = Community.id community) cws ->
  CommunityPost.id post' = CommunityPost.id post ->
  Forall (fun w => SQLiteService.post_write_id w = CommunityPost.id post) pws ->
  (let once := SQLiteService.insertCommunity community db in
   let first := SQLiteService.insertCommunity community' db in
   let again :=
     SQLiteService.insertCommunity community
       (foldl SQLiteService.community_write first cws) in
   again = once
   /\ filter (fun r => Community.id r = Community.id community)
        (SQLiteService.communities again) = [community]
   /\ length (SQLiteService.communities again) = length (SQLiteService.communities first)
   /\ (SQLiteService.primary_keys db -> SQLiteService.primary_keys again)
   /\ (SQLiteService.primary_keys db ->
       Community.id community ∈ Community.id <$> SQLiteService.communities db ->
       length (SQLiteService.communities once) = length (SQLiteService.communities db)))
  /\
  (let once := SQLiteService.insertCommunityPost post db in
   let first := SQLiteService.insertCommunityPost post' db in
   let again :=
     SQLiteService.insertCommunityPost post (foldl SQLiteService.post_write first pws) in
   again = once
   /\ filter (fun r => CommunityPost.id r = CommunityPost.id post)
        (SQLiteService.community_posts again) = [post]
   /\ length (SQLiteService.community_posts again)
      = length (SQLiteService.community_posts first)
   /\ (SQLiteService.primary_keys db -> SQLiteService.primary_keys again)
   /\ (SQLiteService.primary_keys db ->
       CommunityPost.id post ∈ CommunityPost.id <$> SQLiteService.community_posts db ->
       length (SQLiteService.community_posts once)
       = length (SQLiteService.community_posts db))).
Proof.
  intros Hc Hcws Hp Hpws. split.
  - apply insertCommunity_idempotent; assumption.
  - apply insertCommunityPost_idempotent; assumption.
Qed.

Lemma upsert_idempotent_witness :
  SQLiteService.insertCommunity Sample.community1_joined
    (foldl SQLiteService.community_write
       (SQLiteService.insertCommunity Sample.community1 Sample.cache2)
       [SQLiteService.UpdateMembership "abc" 1])
  = SQLiteService.insertCommunity Sample.community1_joined Sample.cache2
  /\ SQLiteService.insertCommunityPost Sample.post1_liked
       (foldl SQLiteService.post_write
          (SQLiteService.insertCommunityPost Sample.post1 Sample.cache2)
          [SQLiteService.UpdateModeration "p1" 1; SQLiteService.DeletePost "p1"])
     = SQLiteService.insertCommunityPost Sample.post1_liked Sample.cache2.
Proof.
  assert (Community.id Sample.community1 = Community.id Sample.community1_joined)
    as Hc by reflexivity.
  assert (Forall (fun w => SQLiteService.community_write_id w
                           = Community.id Sample.community1_joined)
            [SQLiteService.UpdateMembership "abc" 1]) as Hcws
    by (repeat constructor).
  assert (CommunityPost.id Sample.post1 = CommunityPost.id Sample.post1_liked)
    as Hp by reflexivity.
  assert (Forall (fun w => SQLiteService.post_write_id w
                           = CommunityPost.id Sample.post1_liked)
            [SQLiteService.UpdateModeration "p1" 1; SQLiteService.DeletePost "p1"])
    as Hpws by (repeat constructor).
  pose proof (upsert_idempotent Sample.cache2 _ _ _ _ _ _ Hc Hcws Hp Hpws) as [H1 H2].
  split; [exact (proj1 H1) | exact (proj1 H2)].
Defined.

(** The optimistic write of a post followed by the server's version of the
    same id leaves one row, the server's. *)
Example upsert_p1 :
  SQLiteService.community_posts
    (SQLiteService.insertCommunityPost Sample.post1_liked Sample.cache2)
  = [Sample.post1_liked].
Proof. vm_compute. reflexivity. Qed.



(** The cache with the community "abc" and its post "p1": after the row of
    "abc" is deleted on the connection of initDb, "p1" is still there and no
    community is. *)
Example deleteCommunity_abc :
  let db' := SQLiteService.deleteCommunity SQLiteService.initDb "abc" Sample.cache2 in
  SQLiteService.postsOfCommunity "abc" Sample.cache2 = [Sample.post1]
  /\ SQLiteService.communities db' = []
  /\ SQLiteService.community_posts db' = [Sample.post1].
Proof. vm_compute. repeat split; reflexivity. Qed.

(** ** KeyStore *)

(** Resuming such a run ends it in the catch, with the store untouched:
    with a stored value util.decodeBase64 throws, without one
    util.encodeBase64 throws before setItemAsync is called. *)
Lemma resume_unwritten {L : NaCl} (store : gmap string string)
    (r : ConversationScreen.Run) :
  ConversationScreen.unwritten r ->
  ConversationScreen.resume store r = (store, ConversationScreen.Finished None).
Proof.
  intros [(k & entropy & ->)| ->]; [|reflexivity].
  cbn [ConversationScreen.resume]. cbv zeta.
  destruct (truthy (store !! k)); [|reflexivity].
  destruct (store !! k); reflexivity.
Qed.

Lemma interleave_unwritten {L : NaCl} (store : gmap string string)
    (schedule : list nat) (runs : list ConversationScreen.Run) :
  Forall ConversationScreen.unwritten runs ->
  exists runs',
    ConversationScreen.interleave schedule store runs = (store, runs')
    /\ length runs' = length runs
    /\ Forall ConversationScreen.unwritten runs'
    /\ (forall i, i ∈ schedule -> i < length runs ->
          runs' !! i = Some (ConversationScreen.Finished None))
    /\ (forall i, i ∉ schedule -> runs' !! i = runs !! i).
Proof.
  revert runs. induction schedule as [|j schedule IH]; intros runs Hruns.
  - exists runs. split; [reflexivity|]. split; [reflexivity|]. split; [exact Hruns|].
    split; [intros i Hi; inversion Hi|reflexivity].
  - cbn [ConversationScreen.interleave].
    destruct (runs !! j) as [r|] eqn:Hj.
    + assert (ConversationScreen.unwritten r) as Hr.
      { rewrite Forall_forall in Hruns. apply Hruns.
        apply list_elem_of_lookup. exists j. exact Hj. }
      rewrite (resume_unwritten store r Hr).
      assert (j < length runs) as Hlt by (apply lookup_lt_Some in Hj; exact Hj).
      destruct (IH (<[j := ConversationScreen.Finished None]> runs))
        as (runs' & Hrun & Hlen & Hall & Hsched & Hrest).
      { apply Forall_insert; [exact Hruns|]. right. reflexivity. }
      rewrite length_insert in Hlen, Hsched.
      exists runs'. split; [exact Hrun|]. split; [exact Hlen|]. split; [exact Hall|].
      split.
      * intros i Hi Hil. destruct (decide (i ∈ schedule)) as [Hin|Hout].
        -- apply Hsched; assumption.
        -- apply elem_of_cons in Hi as [->|Hi]; [|contradiction].
           rewrite (Hrest j Hout). apply list_lookup_insert_eq. exact Hlt.
      * intros i Hi. apply not_elem_of_cons in Hi as [Hne Hi].
        rewrite (Hrest i Hi). apply list_lookup_insert_ne. congruence.
    + destruct (IH runs Hruns) as (runs' & Hrun & Hlen & Hall & Hsched & Hrest).
      exists runs'. split; [exact Hrun|]. split; [exact Hlen|]. split; [exact Hall|].
      split.
      * intros i Hi Hil. apply elem_of_cons in Hi as [->|Hi].
        -- apply lookup_ge_None in Hj. lia.
        -- apply Hsched; assumption.
      * intros i Hi. apply not_elem_of_cons in Hi as [_ Hi]. apply Hrest, Hi.
Qed.

(** One call on its own. *)
Lemma initializeSeekerKeyPair_throws {L : NaCl}
    (identityId : string) (entropy : bytes) (store : gmap string string) :
  ConversationScreen.initializeSeekerKeyPair identityId entropy store = (store, None).
Proof.
  unfold ConversationScreen.initializeSeekerKeyPair.
  rewrite (resume_unwritten store (ConversationScreen.start identityId entropy))
    by (left; eexists _, _; reflexivity).
  rewrite (resume_unwritten store (ConversationScreen.Finished None))
    by (right; reflexivity).
  reflexivity.
Qed.

(** C3, on the code. For every identity and every content of the store, a
    run of initializeSeekerKeyPair ends in its catch: it sets no key pair and
    leaves the store as it is. With a value stored under the identity,
    util.decodeBase64 throws; without one the run generates a key pair and
    util.encodeBase64 throws before SecureStore.setItemAsync is called, so
    the generated key is not persisted. However many runs start and however
    their awaits interleave, the store stays as it was, no run is ever
    suspended on a write, every run that was resumed has ended without a key
    pair, and the others have not begun. So a stored key is not loaded, a
    fresh identity gets no persisted key, and two calls for a fresh identity
    leave no persisted key pair and return no key material. *)
Theorem initializeSeekerKeyPair_never_persists {L : NaCl}
    (identityId : string) (store : gmap string string) :
  (forall entropy,
     ConversationScreen.initializeSeekerKeyPair identityId entropy store
     = (store, None))
  /\ (forall entropy1 entropy2,
        let first := ConversationScreen.initializeSeekerKeyPair identityId entropy1 store in
        ConversationScreen.initializeSeekerKeyPair identityId entropy2 first.1
        = (store, None))
  /\ (forall (entropies : list bytes) (schedule : list nat),
        exists runs',
          ConversationScreen.interleave schedule store
            (ConversationScreen.start identityId <$> entropies) = (store, runs')
          /\ length runs' = length entropies
          /\ (forall i, i ∈ schedule -> i < length entropies ->
                runs' !! i = Some (ConversationScreen.Finished None))
          /\ (forall i, i ∉ schedule ->
                runs' !! i = ConversationScreen.start identityId <$> (entropies !! i))).
Proof.
  split; [intros entropy; apply initializeSeekerKeyPair_throws|]. split.
  - intros entropy1 entropy2 first. subst first.
    rewrite (initializeSeekerKeyPair_throws identityId entropy1 store).
    apply initializeSeekerKeyPair_throws.
  - intros entropies schedule.
    destruct (interleave_unwritten store schedule
                (ConversationScreen.start identityId <$> entropies))
      as (runs' & Hint & Hlen & _ & Hsched & Hrest).
    { apply Forall_fmap, Forall_forall. intros e _. left. eexists _, _. reflexivity. }
    rewrite length_fmap in Hlen, Hsched.
    exists runs'. split; [exact Hint|]. split; [exact Hlen|].
    split; [exact Hsched|]. intros i Hi. rewrite (Hrest i Hi).
    apply list_lookup_fmap.
Qed.

Section KeyStore_example.
Import Reference.

(** The fresh identity "seeker" and an empty store: one call, and two calls
  whose awaits alternate. Nothing is stored, and no call has a key pair. *)
Example initializeSeekerKeyPair_fresh :
  ConversationScreen.initializeSeekerKeyPair "seeker" Sample.entropy1 ∅ = (∅, None)
  /\ ConversationScreen.interleave [0; 1; 0; 1] ∅
       [ConversationScreen.start "seeker" Sample.entropy1;
        ConversationScreen.start "seeker" Sample.entropy2]
     = (∅, [ConversationScreen.Finished None; ConversationScreen.Finished None]).
Proof. split; reflexivity. Qed.

(** A store that holds a value under the identity: the call does not load
  it. *)
Example initializeSeekerKeyPair_stored :
  let store : gmap string string :=
    {[ConversationScreen.keyStoreId "seeker" := "KioqKioqKioqKioqKioqKioqKioqKioqKioqKioqKio="%string]} in
  ConversationScreen.initializeSeekerKeyPair "seeker" Sample.entropy1 store
  = (store, None).
Proof.
  intros store. apply initializeSeekerKeyPair_throws.
Qed.

End KeyStore_example.

(** ** ConnectionManager *)

Lemma emitted_app (out1 out2 : list SocketService.Effect) :
  SocketService.emitted (out1 ++ out2)
  = SocketService.emitted out1 ++ SocketService.emitted out2.
Proof. apply omap_app. Qed.

Lemma join_requests_app (out1 out2 : list SocketService.Effect) :
  SocketService.join_requests (out1 ++ out2)
  = SocketService.join_requests out1 ++ SocketService.join_requests out2.
Proof. apply omap_app. Qed.

Lemma has_true (room : string) (rooms : list string) :
  SocketService.has room rooms = true <-> room ∈ rooms.
Proof. unfold SocketService.has. apply bool_decide_eq_true. Qed.

Lemma has_add (room : string) (rooms : list string) :
  SocketService.has room (SocketService.add room rooms) = true.
Proof.
  unfold SocketService.add. destruct (SocketService.has room rooms) eqn:Hh; [exact Hh|].
  apply has_true. apply elem_of_app. right. apply list_elem_of_here.
Qed.

(** joinChat for a room that is already in activeRooms does nothing on the
    wire and leaves the service as it is. *)
Lemma joinChat_member (room : string) (st : SocketService.t) :
  room ∈ SocketService.activeRooms st ->
  (SocketService.joinChat room st).1 = st
  /\ SocketService.emitted (SocketService.joinChat room st).2 = [].
Proof.
  intros Hin. unfold SocketService.joinChat.
  destruct (negb (SocketService.socket_connected st)); [split; reflexivity|].
  apply has_true in Hin. rewrite Hin. split; reflexivity.
Qed.

Lemma forEach_joinChat_members (rooms : list string) (st : SocketService.t)
    (acc : list SocketService.Effect) :
  (forall room, room ∈ rooms -> room ∈ SocketService.activeRooms st) ->
  exists out,
    foldl (fun acc x => let '(st', out) := SocketService.joinChat x acc.1 in
                        (st', acc.2 ++ out)) (st, acc) rooms
    = (st, acc ++ out)
    /\ SocketService.emitted out = [].
Proof.
  revert acc. induction rooms as [|room rooms IH]; intros acc Hall.
  - exists []. rewrite app_nil_r. split; reflexivity.
  - simpl. destruct (joinChat_member room st) as [Hst Hout].
    { apply Hall. apply list_elem_of_here. }
    destruct (SocketService.joinChat room st) as [st' out] eqn:Hj.
    simpl in Hst, Hout. subst st'.
    destruct (IH (acc ++ out)) as (out' & Hfold & Hem).
    { intros r Hr. apply Hall. apply list_elem_of_further. exact Hr. }
    exists (out ++ out'). rewrite Hfold, app_assoc. split; [reflexivity|].
    rewrite emitted_app, Hout, Hem. reflexivity.
Qed.

(** The rejoin loop of the connect handler sends nothing: every room it
    visits is in activeRooms, where joinChat returns early. *)
Lemma rejoin_sends_nothing (st : SocketService.t) :
  exists out,
    SocketService.forEach SocketService.joinChat (SocketService.activeRooms st) st
    = (st, out)
    /\ SocketService.emitted out = [].
Proof.
  destruct (forEach_joinChat_members (SocketService.activeRooms st) st [])
    as (out & Hfold & Hem); [intros r Hr; exact Hr|].
  exists out. split; [exact Hfold | exact Hem].
Qed.

Lemma join_requests_emitted_nil (out : list SocketService.Effect) :
  SocketService.emitted out = [] -> SocketService.join_requests out = [].
Proof.
  induction out as [|e out IH]; [reflexivity|].
  destruct e as [ev| | | | | |]; simpl; try exact IH. discriminate.
Qed.

(** What the connect handler does: it authenticates and sends nothing else,
    and activeRooms is what it was. *)
Lemma on_connect_emitted (userId : string) (st : SocketService.t) :
  SocketService.activeRooms (SocketService.on_connect userId st).1
  = SocketService.activeRooms st
  /\ SocketService.emitted (SocketService.on_connect userId st).2
     = if SocketService.socket_connected st
       then [SocketService.authenticate_ev userId] else [].
Proof.
  unfold SocketService.on_connect, SocketService.authenticate.
  destruct (rejoin_sends_nothing (SocketService.with_isConnected true st))
    as (out & Hfold & Hem).
  simpl in Hfold.
  destruct (SocketService.socket_connected st) eqn:Hc; simpl;
    (destruct (0 <? length (SocketService.activeRooms st));
     [rewrite Hfold; simpl; rewrite !emitted_app, Hem; split; reflexivity
     |split; reflexivity]).
Qed.

(** The connect event on the current socket: activeRooms is kept, and the
    authentication is all that is sent. *)
Lemma transport_connected_emitted (userId : string) (st : SocketService.t) :
  SocketService.activeRooms (SocketService.transport_connected userId st).1
  = SocketService.activeRooms st
  /\ SocketService.emitted (SocketService.transport_connected userId st).2
     = (if bool_decide (is_Some (SocketService.socket st))
        then [SocketService.authenticate_ev userId] else []).
Proof.
  unfold SocketService.transport_connected.
  destruct (SocketService.socket st) as [s|] eqn:Hs; [|split; reflexivity].
  destruct (on_connect_emitted userId
              (SocketService.with_socket (Some {| SocketService.connected := true |}) st))
    as [H1 H2].
  split; [exact H1|]. rewrite H2. reflexivity.
Qed.

Lemma transport_connected_no_join (userId : string) (st : SocketService.t) :
  SocketService.join_requests (SocketService.transport_connected userId st).2 = [].
Proof.
  destruct (transport_connected_emitted userId st) as [_ Hem]. revert Hem.
  generalize (SocketService.transport_connected userId st).2.
  intros out Hem. destruct (bool_decide _).
  - induction out as [|e out IH]; [reflexivity|].
    destruct e as [ev| | | | | |]; simpl in *; try (apply IH; exact Hem).
    injection Hem as -> Hout. simpl. apply join_requests_emitted_nil. exact Hout.
  - apply join_requests_emitted_nil. exact Hem.
Qed.

Lemma socket_disconnect_activeRooms (st : SocketService.t) :
  SocketService.activeRooms (SocketService.socket_disconnect st).1
  = SocketService.activeRooms st.
Proof.
  unfold SocketService.socket_disconnect, SocketService.on_disconnect.
  destruct (SocketService.socket_connected st); [|reflexivity]. simpl.
  destruct (SocketService.isPersistent st); [|reflexivity].
  destruct (SocketService.userId st); reflexivity.
Qed.

(** initSocket keeps activeRooms. *)
Lemma initSocket_activeRooms (userId : string) (st : SocketService.t) :
  SocketService.activeRooms (SocketService.initSocket userId st).1
  = SocketService.activeRooms st.
Proof.
  unfold SocketService.initSocket.
  destruct (bool_decide (is_Some (SocketService.socket st))
            && SocketService._isConnected st
            && strict_eq (SocketService.userId st) (Some userId)); [reflexivity|].
  destruct (bool_decide (is_Some (SocketService.socket st))); [|reflexivity].
  pose proof (socket_disconnect_activeRooms st) as Hd.
  destruct (SocketService.socket_disconnect st) as [st' out]. exact Hd.
Qed.

(** C5, as stated, fails: pauseConnection on the connected service that has
    joined "community_abc" leaves no room in activeRooms. *)
Lemma pause_forgets_rooms_counterexample :
  SocketService.activeRooms Sample.joined = ["community_abc"%string]
  /\ SocketService.activeRooms (SocketService.pauseConnection Sample.joined).1 = []
  /\ SocketService.activeRooms (SocketService.pauseConnection Sample.joined).1
     <> SocketService.activeRooms Sample.joined.
Proof. vm_compute. split; [reflexivity|]. split; [reflexivity|]. discriminate. Qed.

(** C5, amended. pauseConnection on a service that has a socket and is
    marked connected empties activeRooms, disconnects the socket and marks
    the service as not connected, without scheduling a reconnection; the
    user id and the persistence flag stay. On any other service it does
    nothing. After a pause, the connect handler of a resumed connection has
    no room to rejoin. *)
Theorem pauseConnection_clears_rooms (st : SocketService.t) :
  let '(st', out) := SocketService.pauseConnection st in
  if bool_decide (is_Some (SocketService.socket st)) && SocketService._isConnected st
  then
    SocketService.activeRooms st' = []
    /\ SocketService._isConnected st' = false
    /\ SocketService.socket_connected st' = false
    /\ out = []
    /\ SocketService.userId st' = SocketService.userId st
    /\ SocketService.isPersistent st' = SocketService.isPersistent st
    /\ forall userId,
         let resumed :=
           SocketService.transport_connected userId
             (SocketService.resumeConnection userId st').1 in
         SocketService.activeRooms resumed.1 = []
         /\ SocketService.join_requests resumed.2 = []
  else st' = st /\ out = [].
Proof.
  assert (forall st' userId,
            SocketService.activeRooms st' = [] ->
            SocketService.activeRooms
              (SocketService.transport_connected userId
                 (SocketService.resumeConnection userId st').1).1 = []
            /\ SocketService.join_requests
                 (SocketService.transport_connected userId
                    (SocketService.resumeConnection userId st').1).2 = []) as Hresume.
  { intros st' userId Hrooms. split; [|apply transport_connected_no_join].
    rewrite (proj1 (transport_connected_emitted userId _)).
    unfold SocketService.resumeConnection. rewrite initSocket_activeRooms.
    exact Hrooms. }
  unfold SocketService.pauseConnection.
  destruct (SocketService.socket st) as [[c]|] eqn:Hs; simpl; [|split; reflexivity].
  destruct (SocketService._isConnected st) eqn:Hc; simpl; [|split; reflexivity].
  unfold SocketService.socket_disconnect, SocketService.socket_connected. simpl.
  rewrite Hs. destruct c; simpl.
  - do 6 (split; [reflexivity|]). intros userId. split; reflexivity.
  - rewrite Hs. do 6 (split; [reflexivity|]). intros userId.
    apply Hresume. reflexivity.
Qed.

(** C6, as stated, fails for community posts: sendCommunityPost on the
    connected service, which is in no room, sends the post to
    "community_abc" without a join request and stays out of the room. *)
Lemma sendCommunityPost_no_join_counterexample :
  SocketService.socket_connected Sample.online = true
  /\ SocketService.activeRooms Sample.online = []
  /\ SocketService.emitted (SocketService.sendCommunityPost "abc" "post" Sample.online).2
     = [SocketService.send_community_post "community_abc" "post"]
  /\ SocketService.join_requests
       (SocketService.sendCommunityPost "abc" "post" Sample.online).2 = []
  /\ SocketService.has "community_abc"
       (SocketService.activeRooms
          (SocketService.sendCommunityPost "abc" "post" Sample.online).1) = false.
Proof. vm_compute. repeat split; reflexivity. Qed.

(** C6, amended. While the socket is connected, sendMessage first joins the
    chat if it is not in activeRooms (one join request, the room added) and
    then sends; sendCommunityPost sends to the community room without
    joining and leaves activeRooms as it is. While the socket is not
    connected, either send returns the service unchanged, with nothing sent
    and the error logged. *)
Theorem send_joins_chat_only (st : SocketService.t)
    (chatId message communityId post : string) :
  (if SocketService.socket_connected st then
     let '(st', out) := SocketService.sendMessage chatId message st in
     SocketService.emitted out
     = (if SocketService.has chatId (SocketService.activeRooms st)
        then [] else [SocketService.join_chat chatId])
       ++ [SocketService.send_message message chatId]
     /\ SocketService.activeRooms st' = SocketService.add chatId (SocketService.activeRooms st)
     /\ SocketService.has chatId (SocketService.activeRooms st') = true
   else
     SocketService.sendMessage chatId message st
     = (st, [SocketService.ConsoleError "Cannot send message: socket not connected"]))
  /\
  (if SocketService.socket_connected st then
     let '(st', out) := SocketService.sendCommunityPost communityId post st in
     SocketService.emitted out
     = [SocketService.send_community_post ("community_" +:+ communityId) post]
     /\ SocketService.join_requests out = []
     /\ st' = st
   else
     SocketService.sendCommunityPost communityId post st
     = (st, [SocketService.ConsoleError
               "Cannot send community post: socket not connected"])).
Proof.
  split.
  - unfold SocketService.sendMessage, SocketService.joinChat.
    destruct (SocketService.socket_connected st) eqn:Hc; simpl; [|reflexivity].
    destruct (SocketService.has chatId (SocketService.activeRooms st)) eqn:Hh; simpl.
    + unfold SocketService.add. rewrite Hh.
      split; [reflexivity|]. split; reflexivity.
    + split; [reflexivity|]. split; [reflexivity|]. apply has_add.
  - unfold SocketService.sendCommunityPost.
    destruct (SocketService.socket_connected st) eqn:Hc; simpl; [|reflexivity].
    destruct (SocketService.has _ (SocketService.activeRooms st)); simpl;
      repeat split; reflexivity.
Qed.

(** C7, on the code. The connect handler sends the authentication and no
    join request, whatever activeRooms holds, and leaves activeRooms as it
    is: the rooms joined before the transport was lost are kept but not
    rejoined. A disconnect with the reason "io client disconnect" schedules
    no reconnection; any other reason does, in persistent mode with a user
    id set. *)
Theorem reconnect_replays_no_join (userId : string) (st : SocketService.t) :
  SocketService.join_requests (SocketService.transport_connected userId st).2 = []
  /\ SocketService.activeRooms (SocketService.transport_connected userId st).1
     = SocketService.activeRooms st
  /\ SocketService.emitted (SocketService.transport_connected userId st).2
     = (if bool_decide (is_Some (SocketService.socket st))
        then [SocketService.authenticate_ev userId] else [])
  /\ (SocketService.on_disconnect "io client disconnect" st).2 = []
  /\ (forall reason,
        reason <> "io client disconnect"%string ->
        SocketService.isPersistent st = true ->
        SocketService.userId st = Some userId ->
        (SocketService.transport_lost reason st).2
        = (if SocketService.socket_connected st
           then [SocketService.SetTimeoutInitSocket 2000 userId] else [])
        /\ SocketService.activeRooms (SocketService.transport_lost reason st).1
           = SocketService.activeRooms st).
Proof.
  destruct (transport_connected_emitted userId st) as [Hrooms Hem].
  split; [apply transport_connected_no_join|].
  split; [exact Hrooms|split; [exact Hem|split]].
  - unfold SocketService.on_disconnect. simpl. reflexivity.
  - intros reason Hreason Hp Hu. unfold SocketService.transport_lost.
    destruct (SocketService.socket_connected st); [|split; reflexivity].
    unfold SocketService.on_disconnect. simpl. rewrite Hp, Hu.
    apply String.eqb_neq in Hreason. rewrite Hreason. split; reflexivity.
Qed.

(** The scenario of the design document on the code: the client joins
    "community_abc", the transport closes, the scheduled initSocket runs and
    the new socket connects. The room is still in activeRooms, and the only
    event sent on reconnect is the authentication. *)
Example rejoin_scenario :
  let lost := SocketService.transport_lost "transport close" Sample.joined in
  let again := SocketService.initSocket "user1" lost.1 in
  let reconnected := SocketService.transport_connected "user1" again.1 in
  lost.2 = [SocketService.SetTimeoutInitSocket 2000 "user1"]
  /\ SocketService.activeRooms lost.1 = ["community_abc"%string]
  /\ SocketService.activeRooms reconnected.1 = ["community_abc"%string]
  /\ SocketService.emitted reconnected.2 = [SocketService.authenticate_ev "user1"]
  /\ SocketService.join_requests reconnected.2 = [].
Proof. vm_compute. repeat split; reflexivity. Qed.

(** C9, on the code. A new_message event that has the shape of an encrypted
    payload is dispatched to processEncryptedMessage whoever sent it, also
    when its sender is the local user; the same event without the encrypted
    fields is dropped when its sender is the local user, and so is a
    community post whose author is the local user. *)
Theorem encrypted_echo_is_forwarded (st : SocketService.t)
    (selectedChatId : option string) (m : SocketService.Message.t) :
  truthy (SocketService.Message.id m) = true ->
  truthy (SocketService.Message.chat_room_id m) = true ->
  strict_eq (SocketService.Message.sender_id m) (SocketService.userId st) = true ->
  (if truthy (SocketService.Message.iv m) && truthy (SocketService.Message.ciphertext m)
      && truthy (SocketService.Message.tag m)
      && truthy (SocketService.Message.senderPublicKey m)
   then
     SocketService.on_new_message selectedChatId (Some m) st
     = [SocketService.Dispatch
          (SocketService.processEncryptedMessage
             (SocketService.Message.iv m) (SocketService.Message.ciphertext m)
             (SocketService.Message.tag m) (SocketService.Message.senderPublicKey m)
             (SocketService.Message.chat_room_id m) (SocketService.Message.id m)
             (SocketService.Message.created_at m))]
   else SocketService.on_new_message selectedChatId (Some m) st = [])
  /\ (forall post currentUserId,
        strict_eq (Some (CommunityPost.author_public_key post)) currentUserId = true ->
        SocketService.forwarded
          (SocketService.on_community_post_received currentUserId (Some post)) = []).
Proof.
  intros Hid Hroom Hself. split.
  - unfold SocketService.on_new_message. rewrite Hid, Hroom. simpl.
    destruct (truthy (SocketService.Message.iv m)
              && truthy (SocketService.Message.ciphertext m)
              && truthy (SocketService.Message.tag m)
              && truthy (SocketService.Message.senderPublicKey m)); [reflexivity|].
    rewrite Hself. reflexivity.
  - intros post currentUserId Hown. unfold SocketService.on_community_post_received.
    destruct (truthy (Some (CommunityPost.id post))
              && truthy (Some (CommunityPost.community_id post)));
      [rewrite Hown|]; reflexivity.
Qed.

Lemma encrypted_echo_is_forwarded_witness :
  truthy (SocketService.Message.id Sample.own_encrypted) = true
  /\ truthy (SocketService.Message.chat_room_id Sample.own_encrypted) = true
  /\ strict_eq (SocketService.Message.sender_id Sample.own_encrypted)
       (SocketService.userId Sample.online) = true
  /\ SocketService.on_new_message None (Some Sample.own_encrypted) Sample.online
     = [SocketService.Dispatch
          (SocketService.processEncryptedMessage
             (Some "aXY=") (Some "Y3Q=") (Some "dGFn") (Some "user1")
             (Some "chat1") (Some "m1") (Some "2024-01-01T00:00:00Z"))]%string.
Proof.
  assert (truthy (SocketService.Message.id Sample.own_encrypted) = true) as H1
    by reflexivity.
  assert (truthy (SocketService.Message.chat_room_id Sample.own_encrypted) = true)
    as H2 by reflexivity.
  assert (strict_eq (SocketService.Message.sender_id Sample.own_encrypted)
            (SocketService.userId Sample.online) = true) as H3 by reflexivity.
  split; [exact H1|]. split; [exact H2|]. split; [exact H3|].
  exact (proj1 (encrypted_echo_is_forwarded Sample.online None Sample.own_encrypted
                  H1 H2 H3)).
Defined.

(** The plain message of the same sender is dropped. *)
Example own_plain_dropped :
  SocketService.on_new_message None (Some Sample.own_plain) Sample.online = [].
Proof. vm_compute. reflexivity. Qed.

(** * Further properties of the code *)

(** ** SQLiteService: lookups, updates and deletes *)

Section keyed_rows_more.
Context {A : Type} (key : A -> string).

Lemma filter_key_eq_other (k k' : string) (l : list A) :
  k' <> k ->
  filter (fun x => key x = k') (filter (fun x => key x <> k) l)
  = filter (fun x => key x = k') l.
Proof.
  intros Hne. induction l as [|x l IH]; [reflexivity|].
  destruct (decide (key x = k)) as [He|Hn].
  - rewrite (filter_cons_False (fun x => key x <> k)) by (intros Hx; exact (Hx He)).
    rewrite (filter_cons_False (fun x => key x = k')) by congruence. exact IH.
  - rewrite (filter_cons_True (fun x => key x <> k)) by exact Hn.
    destruct (decide (key x = k')) as [He'|Hn'].
    + rewrite !(filter_cons_True (fun x => key x = k')) by exact He'. f_equal. exact IH.
    + rewrite !(filter_cons_False (fun x => key x = k')) by exact Hn'. exact IH.
Qed.

Lemma filter_key_ne_absent (k : string) (l : list A) :
  k ∉ key <$> l -> filter (fun x => key x <> k) l = l.
Proof.
  induction l as [|x l IH]; [reflexivity|]. rewrite fmap_cons. intros Hk.
  apply not_elem_of_cons in Hk as [Hx Hk].
  rewrite filter_cons_True by congruence. f_equal. apply IH, Hk.
Qed.

Lemma filter_key_eq_absent (k : string) (l : list A) :
  k ∉ key <$> l -> filter (fun x => key x = k) l = [].
Proof.
  induction l as [|x l IH]; [reflexivity|]. rewrite fmap_cons. intros Hk.
  apply not_elem_of_cons in Hk as [Hx Hk].
  rewrite filter_cons_False by congruence. apply IH, Hk.
Qed.

Lemma update_key_absent (k : string) (f : A -> A) (l : list A) :
  k ∉ key <$> l ->
  (fun x => if decide (key x = k) then f x else x) <$> l = l.
Proof.
  induction l as [|x l IH]; [reflexivity|]. rewrite !fmap_cons. intros Hk.
  apply not_elem_of_cons in Hk as [Hx Hk].
  rewrite decide_False by congruence. f_equal. apply IH, Hk.
Qed.

Lemma update_keys (k : string) (f : A -> A) (l : list A) :
  (forall x, key (f x) = key x) ->
  key <$> ((fun x => if decide (key x = k) then f x else x) <$> l) = key <$> l.
Proof.
  intros Hf. rewrite <- list_fmap_compose. apply list_fmap_ext.
  intros i x _. simpl. destruct (decide (key x = k)); [apply Hf|reflexivity].
Qed.

Lemma filter_key_eq_update (k k' : string) (f : A -> A) (l : list A) :
  (forall x, key (f x) = key x) ->
  filter (fun x => key x = k') ((fun x => if decide (key x = k) then f x else x) <$> l)
  = (fun x => if decide (key x = k) then f x else x) <$> filter (fun x => key x = k') l.
Proof.
  intros Hf. induction l as [|x l IH]; [reflexivity|]. rewrite fmap_cons.
  assert (key (if decide (key x = k) then f x else x) = key x) as Hkx
    by (destruct (decide (key x = k)); [apply Hf|reflexivity]).
  destruct (decide (key x = k')) as [He|Hn].
  - rewrite filter_cons_True by (rewrite Hkx; exact He).
    rewrite (filter_cons_True _ x l) by exact He. rewrite fmap_cons. f_equal. exact IH.
  - rewrite filter_cons_False by (rewrite Hkx; exact Hn).
    rewrite (filter_cons_False _ x l) by exact Hn. exact IH.
Qed.

(** With unique keys, a key has at most one row. *)
Lemma NoDup_filter_key_eq_length (k : string) (l : list A) :
  NoDup (key <$> l) -> length (filter (fun x => key x = k) l) <= 1.
Proof.
  induction l as [|x l IH]; [simpl; lia|]. rewrite fmap_cons. intros Hnd.
  apply NoDup_cons in Hnd as [Hx Hl].
  destruct (decide (key x = k)) as [He|Hn].
  - rewrite filter_cons_True by exact He. subst k.
    rewrite (filter_key_eq_absent (key x) l Hx). simpl. lia.
  - rewrite filter_cons_False by exact Hn. apply IH, Hl.
Qed.

End keyed_rows_more.

(** X1. A community that was inserted is what getCommunityById returns for
    its id; the lookup of every other id gives what it gave before, and the
    posts are untouched. *)
Theorem getCommunityById_insertCommunity (db : SQLiteService.Database)
    (community : Community.t) :
  SQLiteService.getCommunityById (Community.id community)
    (SQLiteService.insertCommunity community db) = Some community
  /\ (forall id, id <> Community.id community ->
        SQLiteService.getCommunityById id (SQLiteService.insertCommunity community db)
        = SQLiteService.getCommunityById id db)
  /\ SQLiteService.community_posts (SQLiteService.insertCommunity community db)
     = SQLiteService.community_posts db.
Proof.
  unfold SQLiteService.getCommunityById. simpl. split; [|split; [|reflexivity]].
  - rewrite (filter_key_eq_upsert Community.id). reflexivity.
  - intros id Hid. rewrite filter_app.
    rewrite (filter_key_eq_other Community.id) by exact Hid.
    rewrite filter_cons_False by congruence. rewrite filter_nil, app_nil_r. reflexivity.
Qed.

(** X2. updateCommunityMembership sets the flag of the row with the given id
    and nothing else: the ids of the table, in their order, and the posts
    are as before; a lookup afterwards gives the row the lookup gave before,
    with the new flag if it is the row of that id; and when no row has the
    id, the cache is unchanged. *)
Theorem updateCommunityMembership_effect (db : SQLiteService.Database)
    (communityId : string) (isMember : Z) :
  let db' := SQLiteService.updateCommunityMembership communityId isMember db in
  Community.id <$> SQLiteService.communities db'
  = Community.id <$> SQLiteService.communities db
  /\ SQLiteService.community_posts db' = SQLiteService.community_posts db
  /\ (forall r, SQLiteService.getCommunityById communityId db = Some r ->
        exists r', SQLiteService.getCommunityById communityId db' = Some r'
          /\ Community.is_member r' = isMember
          /\ Community.id r' = Community.id r
          /\ Community.creator_public_key r' = Community.creator_public_key r
          /\ Community.name r' = Community.name r
          /\ Community.type r' = Community.type r
          /\ Community.gating_mint r' = Community.gating_mint r
          /\ Community.created_at r' = Community.created_at r)
  /\ (forall id, id <> communityId ->
        SQLiteService.getCommunityById id db' = SQLiteService.getCommunityById id db)
  /\ (communityId ∉ Community.id <$> SQLiteService.communities db -> db' = db).
Proof.
  intros db'. subst db'. unfold SQLiteService.updateCommunityMembership.
  set (f := fun r : Community.t =>
              {| Community.id := Community.id r;
                 Community.creator_public_key := Community.creator_public_key r;
                 Community.name := Community.name r;
                 Community.type := Community.type r;
                 Community.gating_mint := Community.gating_mint r;
                 Community.created_at := Community.created_at r;
                 Community.is_member := isMember |}).
  assert (forall x, Community.id (f x) = Community.id x) as Hf by reflexivity.
  simpl. split; [apply (update_keys Community.id communityId f _ Hf)|].
  split; [reflexivity|].
  unfold SQLiteService.getCommunityById. simpl.
  split; [|split].
  - intros r Hr. rewrite (filter_key_eq_update Community.id communityId communityId f _ Hf).
    destruct (filter (fun x => Community.id x = communityId) (SQLiteService.communities db))
      as [|x l] eqn:Hfl; [discriminate|].
    simpl in Hr. injection Hr as ->.
    assert (Community.id r = communityId) as Hid.
    { assert (r ∈ filter (fun x => Community.id x = communityId)
                    (SQLiteService.communities db)) as Hin
        by (rewrite Hfl; apply list_elem_of_here).
      apply list_elem_of_filter in Hin as [Hin _]. exact Hin. }
    rewrite fmap_cons. simpl. rewrite decide_True by exact Hid.
    exists (f r). repeat split; reflexivity.
  - intros id Hid. rewrite (filter_key_eq_update Community.id communityId id f _ Hf).
    destruct (filter (fun x => Community.id x = id) (SQLiteService.communities db))
      as [|x l] eqn:Hfl; [reflexivity|].
    assert (Community.id x = id) as Hx.
    { assert (x ∈ filter (fun x => Community.id x = id) (SQLiteService.communities db))
        as Hin by (rewrite Hfl; apply list_elem_of_here).
      apply list_elem_of_filter in Hin as [Hin _]. exact Hin. }
    rewrite fmap_cons. simpl. rewrite decide_False by congruence. reflexivity.
  - intros Habs. destruct db as [cs ps]. simpl in *. f_equal.
    apply (update_key_absent Community.id communityId f cs Habs).
Qed.

(** Every write keeps the primary keys unique. *)
Lemma write_primary_keys (db : SQLiteService.Database) (w : SQLiteService.Write) :
  SQLiteService.primary_keys db -> SQLiteService.primary_keys (SQLiteService.write db w).
Proof.
  intros Hpk. destruct w as [[c|cid m]|[p|pid l r lm rm|pid m|pid]|]; simpl.
  - apply insertCommunity_primary_keys, Hpk.
  - destruct Hpk as [Hc Hp]. split; [|exact Hp]. simpl.
    rewrite (update_keys Community.id); [exact Hc|reflexivity].
  - apply insertCommunityPost_primary_keys, Hpk.
  - destruct Hpk as [Hc Hp]. split; [exact Hc|]. simpl.
    rewrite (update_keys CommunityPost.id); [exact Hp|reflexivity].
  - destruct Hpk as [Hc Hp]. split; [exact Hc|]. simpl.
    rewrite (update_keys CommunityPost.id); [exact Hp|reflexivity].
  - destruct Hpk as [Hc Hp]. split; [exact Hc|]. simpl.
    apply (NoDup_filter_key_ne CommunityPost.id), Hp.
  - split; simpl; constructor.
Qed.

Lemma writes_primary_keys (ws : list SQLiteService.Write) (db : SQLiteService.Database) :
  SQLiteService.primary_keys db ->
  SQLiteService.primary_keys (foldl SQLiteService.write db ws).
Proof.
  revert db. induction ws as [|w ws IH]; intros db Hpk; [exact Hpk|].
  simpl. apply IH, write_primary_keys, Hpk.
Qed.

(** X3. Whatever writes the service has done on an empty cache, inserts,
    updates, deletes and clearAllData in any number and order, no community
    id and no post id has two rows. *)
Theorem cache_ids_unique (ws : list SQLiteService.Write) :
  let db := foldl SQLiteService.write SQLiteService.empty ws in
  SQLiteService.primary_keys db
  /\ (forall id, length (filter (fun r => Community.id r = id)
                           (SQLiteService.communities db)) <= 1)
  /\ (forall id, length (filter (fun r => CommunityPost.id r = id)
                           (SQLiteService.community_posts db)) <= 1).
Proof.
  intros db.
  assert (SQLiteService.primary_keys db) as Hpk
    by (apply writes_primary_keys, empty_primary_keys).
  split; [exact Hpk|]. destruct Hpk as [Hc Hp]. split; intros id.
  - apply (NoDup_filter_key_eq_length Community.id), Hc.
  - apply (NoDup_filter_key_eq_length CommunityPost.id), Hp.
Qed.

(** X4. deleteCommunityPost removes the rows of the given id and no other
    row, and leaves the communities alone; when no row has the id the cache
    is unchanged; and deleting a post that was just inserted under an id
    that was not in use gives back the cache as it was before the insert. *)
Theorem deleteCommunityPost_effect (db : SQLiteService.Database) (postId : string) :
  let db' := SQLiteService.deleteCommunityPost postId db in
  filter (fun r => CommunityPost.id r = postId) (SQLiteService.community_posts db') = []
  /\ (forall id, id <> postId ->
        filter (fun r => CommunityPost.id r = id) (SQLiteService.community_posts db')
        = filter (fun r => CommunityPost.id r = id) (SQLiteService.community_posts db))
  /\ SQLiteService.communities db' = SQLiteService.communities db
  /\ (postId ∉ CommunityPost.id <$> SQLiteService.community_posts db -> db' = db)
  /\ (forall post,
        CommunityPost.id post = postId ->
        postId ∉ CommunityPost.id <$> SQLiteService.community_posts db ->
        SQLiteService.deleteCommunityPost postId
          (SQLiteService.insertCommunityPost post db) = db).
Proof.
  intros db'. subst db'. simpl. split; [|split; [|split; [|split]]].
  - apply (filter_key_eq_none CommunityPost.id).
  - intros id Hid. apply (filter_key_eq_other CommunityPost.id). exact Hid.
  - reflexivity.
  - intros Habs. destruct db as [cs ps]. unfold SQLiteService.deleteCommunityPost.
    simpl in *. f_equal. apply (filter_key_ne_absent CommunityPost.id), Habs.
  - intros post Hid Habs. destruct db as [cs ps].
    unfold SQLiteService.deleteCommunityPost, SQLiteService.insertCommunityPost.
    simpl in *. f_equal. rewrite Hid.
    rewrite (filter_key_ne_snoc CommunityPost.id) by exact Hid.
    rewrite (filter_key_ne_idemp CommunityPost.id).
    apply (filter_key_ne_absent CommunityPost.id), Habs.
Qed.

Lemma deleteCommunityPost_effect_witness :
  CommunityPost.id Sample.post1 = "p1"%string
  /\ ("p1"%string ∉ CommunityPost.id <$> SQLiteService.community_posts SQLiteService.empty)
  /\ SQLiteService.deleteCommunityPost "p1"
       (SQLiteService.insertCommunityPost Sample.post1 SQLiteService.empty)
     = SQLiteService.empty.
Proof.
  assert (CommunityPost.id Sample.post1 = "p1"%string) as Hid by reflexivity.
  assert ("p1"%string ∉ (CommunityPost.id <$>
            SQLiteService.community_posts SQLiteService.empty)) as Habs
    by (simpl; apply not_elem_of_nil).
  split; [exact Hid|]. split; [exact Habs|].
  exact (proj2 (proj2 (proj2 (proj2
           (deleteCommunityPost_effect SQLiteService.empty "p1"))))
           Sample.post1 Hid Habs).
Defined.

Lemma update_post_compose (a b : string) (f g : CommunityPost.t -> CommunityPost.t)
    (h : CommunityPost.t -> CommunityPost.t) (db : SQLiteService.Database) :
  (forall x, CommunityPost.id (g x) = CommunityPost.id x) ->
  (forall x,
     (if decide (CommunityPost.id x = a)
      then f (if decide (CommunityPost.id x = b) then g x else x)
      else (if decide (CommunityPost.id x = b) then g x else x)) = h x) ->
  SQLiteService.update_post a f (SQLiteService.update_post b g db)
  = {| SQLiteService.communities := SQLiteService.communities db;
       SQLiteService.community_posts := h <$> SQLiteService.community_posts db |}.
Proof.
  intros Hg Hh. unfold SQLiteService.update_post. simpl. f_equal.
  rewrite <- list_fmap_compose. apply list_fmap_ext. intros i x _. simpl.
  rewrite <- Hh. destruct (decide (CommunityPost.id x = b)) as [Hb|Hb];
    [rewrite Hg|]; reflexivity.
Qed.

(** X5. The two partial updates of a post act on different columns: an
    engagement update and a moderation update give the same cache in either
    order, on the same or on different posts; of two engagement updates of
    one post the later one stands; neither changes which ids the table
    holds, nor the communities; and for an id that has no row they change
    nothing. *)
Theorem post_updates_compose (db : SQLiteService.Database)
    (a b : string) (l r lm rm l' r' lm' rm' m : Z) :
  SQLiteService.updateCommunityPostEngagement a l r lm rm
    (SQLiteService.updateCommunityPostModeration b m db)
  = SQLiteService.updateCommunityPostModeration b m
      (SQLiteService.updateCommunityPostEngagement a l r lm rm db)
  /\ SQLiteService.updateCommunityPostEngagement a l' r' lm' rm'
       (SQLiteService.updateCommunityPostEngagement a l r lm rm db)
     = SQLiteService.updateCommunityPostEngagement a l' r' lm' rm' db
  /\ CommunityPost.id <$> SQLiteService.community_posts
       (SQLiteService.updateCommunityPostEngagement a l r lm rm db)
     = CommunityPost.id <$> SQLiteService.community_posts db
  /\ CommunityPost.id <$> SQLiteService.community_posts
       (SQLiteService.updateCommunityPostModeration b m db)
     = CommunityPost.id <$> SQLiteService.community_posts db
  /\ (a ∉ CommunityPost.id <$> SQLiteService.community_posts db ->
      SQLiteService.updateCommunityPostEngagement a l r lm rm db = db)
  /\ (b ∉ CommunityPost.id <$> SQLiteService.community_posts db ->
      SQLiteService.updateCommunityPostModeration b m db = db).
Proof.
  unfold SQLiteService.updateCommunityPostEngagement,
    SQLiteService.updateCommunityPostModeration.
  split; [|split; [|split; [|split; [|split]]]].
  - set (h := fun x : CommunityPost.t =>
                let y := if decide (CommunityPost.id x = b)
                         then SQLiteService.set_moderation m x else x in
                if decide (CommunityPost.id x = a)
                then SQLiteService.set_engagement l r lm rm y else y).
    rewrite (update_post_compose a b _ _ h); [|reflexivity|].
    + rewrite (update_post_compose b a _ _ h); [reflexivity|reflexivity|].
      intros x. subst h. simpl.
      destruct (decide (CommunityPost.id x = a)), (decide (CommunityPost.id x = b));
        reflexivity.
    + intros x. subst h. simpl.
      destruct (decide (CommunityPost.id x = a)), (decide (CommunityPost.id x = b));
        reflexivity.
  - rewrite (update_post_compose a a _ _
               (fun x => if decide (CommunityPost.id x = a)
                         then SQLiteService.set_engagement l' r' lm' rm' x else x));
      [reflexivity|reflexivity|].
    intros x. destruct (decide (CommunityPost.id x = a)); reflexivity.
  - simpl. apply (update_keys CommunityPost.id). reflexivity.
  - simpl. apply (update_keys CommunityPost.id). reflexivity.
  - intros Habs. destruct db as [cs ps]. unfold SQLiteService.update_post.
    simpl in *. f_equal. apply (update_key_absent CommunityPost.id), Habs.
  - intros Habs. destruct db as [cs ps]. unfold SQLiteService.update_post.
    simpl in *. f_equal. apply (update_key_absent CommunityPost.id), Habs.
Qed.

Lemma newer_post_total : Total SQLiteService.newer_post.
Proof. intros a b. unfold SQLiteService.newer_post. lia. Qed.

Lemma newer_post_transitive : Transitive SQLiteService.newer_post.
Proof. intros a b c. unfold SQLiteService.newer_post. lia. Qed.

Lemma newer_community_total : Total SQLiteService.newer_community.
Proof. intros a b. unfold SQLiteService.newer_community. lia. Qed.

Lemma newer_community_transitive : Transitive SQLiteService.newer_community.
Proof. intros a b c. unfold SQLiteService.newer_community. lia. Qed.

(** X6. getCommunityPosts returns exactly the posts of the community, each
    as often as the table holds it, ordered so that no post comes before a
    post with a greater timestamp; and a post that was just inserted is in
    the result for its community as the one row of its id. *)
Theorem getCommunityPosts_newest_first (db : SQLiteService.Database)
    (communityId : string) :
  let rows := SQLiteService.getCommunityPosts communityId db in
  rows ≡ₚ SQLiteService.postsOfCommunity communityId db
  /\ (forall p, p ∈ rows <->
                p ∈ SQLiteService.community_posts db
                /\ CommunityPost.community_id p = communityId)
  /\ StronglySorted SQLiteService.newer_post rows
  /\ (forall i j p q, i < j -> rows !! i = Some p -> rows !! j = Some q ->
        (CommunityPost.timestamp q <= CommunityPost.timestamp p)%Z)
  /\ (forall post,
        filter (fun r => CommunityPost.id r = CommunityPost.id post)
          (SQLiteService.getCommunityPosts (CommunityPost.community_id post)
             (SQLiteService.insertCommunityPost post db)) = [post]).
Proof.
  intros rows. subst rows. unfold SQLiteService.getCommunityPosts.
  pose proof (merge_sort_Permutation SQLiteService.newer_post
                (SQLiteService.postsOfCommunity communityId db)) as Hperm.
  pose proof (@StronglySorted_merge_sort _ SQLiteService.newer_post _
                newer_post_transitive newer_post_total
                (SQLiteService.postsOfCommunity communityId db)) as Hsorted.
  split; [exact Hperm|]. split; [|split; [exact Hsorted|split]].
  - intros p. rewrite Hperm. unfold SQLiteService.postsOfCommunity.
    rewrite list_elem_of_filter. tauto.
  - revert Hsorted.
    generalize (merge_sort SQLiteService.newer_post
                  (SQLiteService.postsOfCommunity communityId db)).
    intros l Hs. induction Hs as [|x l Hs IH Hall]; intros i j p q Hij Hi Hj.
    + rewrite lookup_nil in Hi. discriminate.
    + destruct j as [|j]; [lia|]. simpl in Hj. destruct i as [|i].
      * simpl in Hi. injection Hi as <-.
        rewrite Forall_forall in Hall. apply Hall.
        apply list_elem_of_lookup. exists j. exact Hj.
      * simpl in Hi. apply (IH i j p q); [lia|exact Hi|exact Hj].
  - intros post. apply Permutation_singleton_r.
    rewrite (merge_sort_Permutation SQLiteService.newer_post).
    unfold SQLiteService.postsOfCommunity. simpl.
    rewrite filter_app, (filter_cons_True _ post []) by reflexivity.
    rewrite filter_nil, filter_app.
    rewrite (filter_cons_True _ post []) by reflexivity. rewrite filter_nil.
    assert (filter (fun r => CommunityPost.id r = CommunityPost.id post)
              (filter (fun r => CommunityPost.community_id r
                                = CommunityPost.community_id post)
                 (filter (fun r => CommunityPost.id r <> CommunityPost.id post)
                    (SQLiteService.community_posts db))) = []) as ->; [|reflexivity].
    generalize (SQLiteService.community_posts db). intros l.
    induction l as [|x l IH]; [reflexivity|].
    destruct (decide (CommunityPost.id x = CommunityPost.id post)) as [He|Hn].
    + rewrite (filter_cons_False (fun r => CommunityPost.id r <> CommunityPost.id post))
        by (intros Hx; exact (Hx He)). exact IH.
    + rewrite (filter_cons_True (fun r => CommunityPost.id r <> CommunityPost.id post))
        by exact Hn.
      destruct (decide (CommunityPost.community_id x = CommunityPost.community_id post)).
      * rewrite (filter_cons_True (fun r => CommunityPost.community_id r
                                            = CommunityPost.community_id post))
          by assumption.
        rewrite filter_cons_False by exact Hn. exact IH.
      * rewrite (filter_cons_False (fun r => CommunityPost.community_id r
                                             = CommunityPost.community_id post))
          by assumption.
        exact IH.
Qed.

(** ** Upserting a batch of rows *)

Section batch_upsert.
Context {A : Type} (key : A -> string).

Local Abbreviation upserts :=
  (foldl (fun rows p => filter (fun x => key x <> key p) rows ++ [p])).

Lemma filter_not_keys_nil (rows : list A) :
  filter (fun x => key x ∉ []) rows = rows.
Proof.
  induction rows as [|x rows IH]; [reflexivity|].
  rewrite filter_cons_True by apply not_elem_of_nil. f_equal. exact IH.
Qed.

Lemma filter_not_keys_cons (k : string) (ks : list string) (rows : list A) :
  filter (fun x => key x ∉ ks) (filter (fun x => key x <> k) rows)
  = filter (fun x => key x ∉ k :: ks) rows.
Proof.
  induction rows as [|x rows IH]; [reflexivity|].
  destruct (decide (key x = k)) as [He|Hn].
  - rewrite (filter_cons_False (fun x => key x <> k)) by (intros Hx; exact (Hx He)).
    rewrite (filter_cons_False (fun x => key x ∉ k :: ks))
      by (intros Hx; apply Hx; rewrite He; apply list_elem_of_here).
    exact IH.
  - rewrite (filter_cons_True (fun x => key x <> k)) by exact Hn.
    destruct (decide (key x ∈ ks)) as [Hin|Hout].
    + rewrite filter_cons_False by (intros Hx; exact (Hx Hin)).
      rewrite (filter_cons_False (fun x => key x ∉ k :: ks))
        by (intros Hx; apply Hx; apply list_elem_of_further; exact Hin).
      exact IH.
    + rewrite filter_cons_True by exact Hout.
      rewrite (filter_cons_True (fun x => key x ∉ k :: ks))
        by (apply not_elem_of_cons; split; assumption).
      f_equal. exact IH.
Qed.

(** The rows after the batch: the old rows whose key is not in the batch,
    in their order, followed by rows that depend on the batch only. *)
Lemma upserts_split (l : list A) (rows : list A) :
  upserts rows l = filter (fun x => key x ∉ key <$> l) rows ++ upserts [] l.
Proof.
  revert rows. induction l as [|p l IH]; intros rows.
  - simpl. rewrite app_nil_r. symmetry. apply filter_not_keys_nil.
  - cbn [foldl]. rewrite (IH (filter (fun x => key x <> key p) rows ++ [p])).
    rewrite (IH (filter (fun x => key x <> key p) [] ++ [p])).
    rewrite fmap_cons, app_assoc. f_equal.
    rewrite filter_app, filter_not_keys_cons. f_equal.
Qed.

(** Every row the batch leaves behind is a row of the batch. *)
Lemma upserts_nil_elem (l : list A) (x : A) :
  x ∈ upserts [] l -> x ∈ l.
Proof.
  assert (forall rows, x ∈ upserts rows l -> x ∈ rows \/ x ∈ l) as Hgen.
  { induction l as [|p l IH]; intros rows Hx; [left; exact Hx|].
    cbn [foldl] in Hx. apply IH in Hx as [Hx|Hx].
    - apply elem_of_app in Hx as [Hx|Hx].
      + left. apply list_elem_of_filter in Hx as [_ Hx]. exact Hx.
      + right. apply list_elem_of_singleton in Hx. subst x. apply list_elem_of_here.
    - right. apply list_elem_of_further. exact Hx. }
  intros Hx. apply Hgen in Hx as [Hx|Hx]; [inversion Hx|exact Hx].
Qed.

Lemma filter_not_keys_upserts_nil (l : list A) :
  filter (fun x => key x ∉ key <$> l) (upserts [] l) = [].
Proof.
  assert (forall rows : list A,
            (forall x, x ∈ rows -> key x ∈ key <$> l) ->
            filter (fun x => key x ∉ key <$> l) rows = []) as Hall.
  { induction rows as [|x rows IH]; intros Hin; [reflexivity|].
    rewrite filter_cons_False.
    - apply IH. intros y Hy. apply Hin. apply list_elem_of_further. exact Hy.
    - intros Hn. apply Hn, Hin. apply list_elem_of_here. }
  apply Hall. intros x Hx. apply list_elem_of_fmap. exists x.
  split; [reflexivity|]. apply upserts_nil_elem. exact Hx.
Qed.

Lemma filter_not_keys_idemp (ks : list string) (rows : list A) :
  filter (fun x => key x ∉ ks) (filter (fun x => key x ∉ ks) rows)
  = filter (fun x => key x ∉ ks) rows.
Proof.
  induction rows as [|x rows IH]; [reflexivity|].
  destruct (decide (key x ∈ ks)) as [Hin|Hout].
  - rewrite (filter_cons_False _ x rows) by (intros Hn; exact (Hn Hin)). exact IH.
  - rewrite (filter_cons_True _ x rows) by exact Hout.
    rewrite filter_cons_True by exact Hout. f_equal. exact IH.
Qed.

(** Applying the same batch a second time changes nothing. *)
Lemma upserts_idemp (l : list A) (rows : list A) :
  upserts (upserts rows l) l = upserts rows l.
Proof.
  rewrite (upserts_split l (upserts rows l)), (upserts_split l rows).
  rewrite filter_app, filter_not_keys_upserts_nil, app_nil_r.
  rewrite filter_not_keys_idemp. reflexivity.
Qed.

(** A key that the batch does not mention keeps its rows. *)
Lemma upserts_other (l : list A) (rows : list A) (k : string) :
  k ∉ key <$> l ->
  filter (fun x => key x = k) (upserts rows l) = filter (fun x => key x = k) rows.
Proof.
  revert rows. induction l as [|p l IH]; intros rows Hk; [reflexivity|].
  rewrite fmap_cons in Hk. apply not_elem_of_cons in Hk as [Hp Hk].
  cbn [foldl]. rewrite (IH _ Hk). rewrite filter_app.
  rewrite (filter_key_eq_other key) by exact Hp.
  rewrite filter_cons_False by congruence. rewrite filter_nil. apply app_nil_r.
Qed.

(** The row of a key after the batch is the last row the batch has for it. *)
Lemma upserts_last (l1 l2 : list A) (p : A) (rows : list A) :
  key p ∉ key <$> l2 ->
  filter (fun x => key x = key p) (upserts rows (l1 ++ p :: l2)) = [p].
Proof.
  intros Hk. rewrite foldl_app. cbn [foldl]. rewrite (upserts_other l2 _ _ Hk).
  apply (filter_key_eq_upsert key).
Qed.

Lemma NoDup_upserts (l : list A) (rows : list A) :
  NoDup (key <$> rows) -> NoDup (key <$> upserts rows l).
Proof.
  revert rows. induction l as [|p l IH]; intros rows Hnd; [exact Hnd|].
  cbn [foldl]. apply IH. apply (NoDup_upsert key), Hnd.
Qed.

End batch_upsert.

Lemma storeRemotePosts_rows (remotePosts : list CommunityPost.t)
    (db : SQLiteService.Database) :
  CommunityFeedScreen.storeRemotePosts remotePosts db
  = {| SQLiteService.communities := SQLiteService.communities db;
       SQLiteService.community_posts :=
         foldl (fun rows p =>
                  filter (fun x => CommunityPost.id x <> CommunityPost.id p) rows ++ [p])
               (SQLiteService.community_posts db) remotePosts |}.
Proof.
  unfold CommunityFeedScreen.storeRemotePosts. revert db.
  induction remotePosts as [|p l IH]; intros db; [destruct db; reflexivity|].
  cbn [foldl]. rewrite IH. reflexivity.
Qed.

(** X7. The loop that stores the posts fetched from the server: storing the
    same list a second time changes nothing; rows whose id is not in the
    list are kept, in their order, and the communities are untouched; for an
    id that occurs in the list, the one row left is the last post of the list
    with that id; and unique ids stay unique. *)
Theorem storeRemotePosts_converges (remotePosts : list CommunityPost.t)
    (db : SQLiteService.Database) :
  let db' := CommunityFeedScreen.storeRemotePosts remotePosts db in
  CommunityFeedScreen.storeRemotePosts remotePosts db' = db'
  /\ filter (fun r => CommunityPost.id r ∉ CommunityPost.id <$> remotePosts)
       (SQLiteService.community_posts db')
     = filter (fun r => CommunityPost.id r ∉ CommunityPost.id <$> remotePosts)
         (SQLiteService.community_posts db)
  /\ SQLiteService.communities db' = SQLiteService.communities db
  /\ (forall before post after,
        remotePosts = before ++ post :: after ->
        CommunityPost.id post ∉ CommunityPost.id <$> after ->
        filter (fun r => CommunityPost.id r = CommunityPost.id post)
          (SQLiteService.community_posts db') = [post])
  /\ (SQLiteService.primary_keys db -> SQLiteService.primary_keys db').
Proof.
  intros db'. subst db'. rewrite !storeRemotePosts_rows. simpl.
  split; [|split; [|split; [reflexivity|split]]].
  - f_equal. apply (upserts_idemp CommunityPost.id).
  - rewrite (upserts_split CommunityPost.id), filter_app.
    rewrite (filter_not_keys_upserts_nil CommunityPost.id), app_nil_r.
    apply (filter_not_keys_idemp CommunityPost.id).
  - intros before post after -> Hlast. apply (upserts_last CommunityPost.id). exact Hlast.
  - intros [Hc Hp]. split; [exact Hc|]. simpl.
    apply (NoDup_upserts CommunityPost.id), Hp.
Qed.

(** ** BackgroundSyncTask: the catch-up loop as a whole *)

(** The posts a batch stores do not depend on the cache: the loop is the
    upsert, in order, of the posts of the iterations that did not fail. *)
Lemma syncPosts_stored
    {L : NaCl} {G : AesGcm} {B : js_base64.JsBase64} {T : TextCodec} {D : JsDate}
    (seekerSk : bytes) (communityId : string)
    (missedPosts : list (BackgroundSyncTask.EncryptedServerMessage * bytes)) :
  exists stored,
    (forall db,
       BackgroundSyncTask.syncPosts seekerSk communityId missedPosts db
       = CommunityFeedScreen.storeRemotePosts stored db)
    /\ Forall (fun p => exists m content,
                 m ∈ missedPosts.*1
                 /\ p = BackgroundSyncTask.communityPost communityId m content) stored.
Proof.
  induction missedPosts as [|[m entropy] items IH].
  - exists []. split; [reflexivity|constructor].
  - destruct IH as (stored & Hrun & Hall).
    assert (Forall (fun p => exists m' content,
                      m' ∈ ((m, entropy) :: items).*1
                      /\ p = BackgroundSyncTask.communityPost communityId m' content)
              stored) as Hall'.
    { eapply Forall_impl; [exact Hall|]. intros p (m' & c & Hin & Hp).
      exists m', c. split; [|exact Hp]. rewrite fmap_cons.
      apply list_elem_of_further. exact Hin. }
    assert (forall c, exists m' content,
              m' ∈ ((m, entropy) :: items).*1
              /\ BackgroundSyncTask.communityPost communityId m c
                 = BackgroundSyncTask.communityPost communityId m' content) as Hhead.
    { intros c. exists m, c. split; [|reflexivity]. rewrite fmap_cons.
      apply list_elem_of_here. }
    unfold BackgroundSyncTask.syncPosts in *. cbn [foldl].
    unfold BackgroundSyncTask.syncPost at 2.
    destruct (BackgroundSyncTask.is_encrypted m).
    + destruct (EncryptionService.decrypt _ _) as [err|content].
      * exists stored. split; [|exact Hall']. intros db. simpl. apply Hrun.
      * exists (BackgroundSyncTask.communityPost communityId m content :: stored).
        split; [|constructor; [apply Hhead|exact Hall']].
        intros db. simpl. apply Hrun.
    + destruct (BackgroundSyncTask.content m) as [content|].
      * exists (BackgroundSyncTask.communityPost communityId m content :: stored).
        split; [|constructor; [apply Hhead|exact Hall']].
        intros db. simpl. apply Hrun.
      * exists stored. split; [|exact Hall']. intros db. simpl. apply Hrun.
Qed.

(** X8. The catch-up loop over the missed posts of a community, whatever the
    posts and whether they decrypt or not: it leaves the communities table
    and every post whose id is not in the batch as they were; every row of
    the cache afterwards was there before or is a post of this community
    built from a post of the batch (empty signature, zero counts, no author
    name, not moderated); unique ids stay unique; and running the same batch
    again, with the same outcomes of decryption, changes nothing. *)
Theorem syncPosts_safe
    {L : NaCl} {G : AesGcm} {B : js_base64.JsBase64} {T : TextCodec} {D : JsDate}
    (seekerSk : bytes) (communityId : string)
    (missedPosts : list (BackgroundSyncTask.EncryptedServerMessage * bytes))
    (db : SQLiteService.Database) :
  let db' := BackgroundSyncTask.syncPosts seekerSk communityId missedPosts db in
  SQLiteService.communities db' = SQLiteService.communities db
  /\ (forall id, id ∉ BackgroundSyncTask.id <$> missedPosts.*1 ->
        filter (fun r => CommunityPost.id r = id) (SQLiteService.community_posts db')
        = filter (fun r => CommunityPost.id r = id) (SQLiteService.community_posts db))
  /\ (forall r, r ∈ SQLiteService.community_posts db' ->
        r ∈ SQLiteService.community_posts db
        \/ exists m content,
             m ∈ missedPosts.*1
             /\ r = BackgroundSyncTask.communityPost communityId m content)
  /\ (SQLiteService.primary_keys db -> SQLiteService.primary_keys db')
  /\ BackgroundSyncTask.syncPosts seekerSk communityId missedPosts db' = db'.
Proof.
  intros db'. subst db'.
  destruct (syncPosts_stored seekerSk communityId missedPosts) as (stored & Hrun & Hall).
  rewrite !Hrun, !storeRemotePosts_rows. simpl.
  assert (forall id, id ∉ BackgroundSyncTask.id <$> missedPosts.*1 ->
            id ∉ CommunityPost.id <$> stored) as Hids.
  { intros id Hid Hin. apply Hid. apply list_elem_of_fmap in Hin as (p & -> & Hp).
    rewrite Forall_forall in Hall. destruct (Hall p Hp) as (m & c & Hm & ->).
    apply list_elem_of_fmap. exists m. split; [reflexivity|exact Hm]. }
  split; [reflexivity|]. split; [|split; [|split]].
  - intros id Hid. apply (upserts_other CommunityPost.id). apply Hids, Hid.
  - intros r Hr. rewrite (upserts_split CommunityPost.id) in Hr.
    apply elem_of_app in Hr as [Hr|Hr].
    + left. apply list_elem_of_filter in Hr as [_ Hr]. exact Hr.
    + right. apply (upserts_nil_elem CommunityPost.id) in Hr.
      rewrite Forall_forall in Hall. apply Hall, Hr.
  - intros [Hc Hp]. split; [exact Hc|]. simpl.
    apply (NoDup_upserts CommunityPost.id), Hp.
  - f_equal. apply (upserts_idemp CommunityPost.id).
Qed.

(** ** SQLiteService: the list of communities *)

(** X9. getCommunities returns exactly the rows of the communities table,
    each as often as the table holds it, ordered so that no community comes
    before one with a greater created_at; a community that was just inserted
    is in the result as the one row of its id; and after
    updateCommunityMembership(id, m) every row of that id in the result
    carries the flag m. *)
Theorem getCommunities_newest_first (db : SQLiteService.Database) :
  let rows := SQLiteService.getCommunities db in
  rows ≡ₚ SQLiteService.communities db
  /\ StronglySorted SQLiteService.newer_community rows
  /\ (forall i j a b, i < j -> rows !! i = Some a -> rows !! j = Some b ->
        (Community.created_at b <= Community.created_at a)%Z)
  /\ (forall community,
        filter (fun r => Community.id r = Community.id community)
          (SQLiteService.getCommunities (SQLiteService.insertCommunity community db))
        = [community])
  /\ (forall communityId m r,
        r ∈ SQLiteService.getCommunities
              (SQLiteService.updateCommunityMembership communityId m db) ->
        Community.id r = communityId -> Community.is_member r = m).
Proof.
  intros rows. subst rows. unfold SQLiteService.getCommunities.
  pose proof (merge_sort_Permutation SQLiteService.newer_community
                (SQLiteService.communities db)) as Hperm.
  pose proof (@StronglySorted_merge_sort _ SQLiteService.newer_community _
                newer_community_transitive newer_community_total
                (SQLiteService.communities db)) as Hsorted.
  split; [exact Hperm|]. split; [exact Hsorted|]. split; [|split].
  - revert Hsorted.
    generalize (merge_sort SQLiteService.newer_community (SQLiteService.communities db)).
    intros l Hs. induction Hs as [|x l Hs IH Hall]; intros i j a b Hij Hi Hj.
    + rewrite lookup_nil in Hi. discriminate.
    + destruct j as [|j]; [lia|]. simpl in Hj. destruct i as [|i].
      * simpl in Hi. injection Hi as <-.
        rewrite Forall_forall in Hall. apply Hall.
        apply list_elem_of_lookup. exists j. exact Hj.
      * simpl in Hi. apply (IH i j a b); [lia|exact Hi|exact Hj].
  - intros community. apply Permutation_singleton_r.
    rewrite (merge_sort_Permutation SQLiteService.newer_community). simpl.
    rewrite (filter_key_eq_upsert Community.id). reflexivity.
  - intros communityId m r Hr Hid.
    rewrite (merge_sort_Permutation SQLiteService.newer_community) in Hr.
    simpl in Hr. apply list_elem_of_fmap in Hr as (r0 & -> & _).
    destruct (decide (Community.id r0 = communityId)) as [He|Hne];
      [reflexivity|contradiction].
Qed.


(** ** SocketService: the calls of the screens *)

Lemma with_activeRooms_same (st : SocketService.t) :
  SocketService.with_activeRooms (SocketService.activeRooms st) st = st.
Proof. destruct st. reflexivity. Qed.

Lemma with_activeRooms_twice (rooms rooms' : list string) (st : SocketService.t) :
  SocketService.with_activeRooms rooms' (SocketService.with_activeRooms rooms st)
  = SocketService.with_activeRooms rooms' st.
Proof. reflexivity. Qed.

(** A loop whose body changes activeRooms only, and only as the events it
    emits say, does so as a whole. *)
Lemma forEach_rooms {A : Type}
    (f : A -> SocketService.t -> SocketService.t * list SocketService.Effect)
    (l : list A) (st : SocketService.t) :
  (forall x st0,
     (f x st0).1
     = SocketService.with_activeRooms
         (foldl SocketService.room_event (SocketService.activeRooms st0)
            (SocketService.emitted (f x st0).2)) st0) ->
  (SocketService.forEach f l st).1
  = SocketService.with_activeRooms
      (foldl SocketService.room_event (SocketService.activeRooms st)
         (SocketService.emitted (SocketService.forEach f l st).2)) st.
Proof.
  intros Hf. unfold SocketService.forEach.
  assert (forall acc : SocketService.t * list SocketService.Effect,
            acc.1 = SocketService.with_activeRooms
                      (foldl SocketService.room_event (SocketService.activeRooms st)
                         (SocketService.emitted acc.2)) st ->
            let res := foldl (fun acc x => let '(st', out) := f x acc.1 in
                                           (st', acc.2 ++ out)) acc l in
            res.1 = SocketService.with_activeRooms
                      (foldl SocketService.room_event (SocketService.activeRooms st)
                         (SocketService.emitted res.2)) st) as Hgen.
  { induction l as [|x l IH]; intros acc Hacc; [exact Hacc|].
    cbn [foldl]. apply IH. specialize (Hf x acc.1).
    destruct (f x acc.1) as [st' out]. simpl in *.
    rewrite Hf, emitted_app, foldl_app. rewrite Hacc at 2. simpl.
    rewrite Hacc at 1. reflexivity. }
  apply Hgen. simpl. symmetry. apply with_activeRooms_same.
Qed.

Lemma joinChat_rooms (chatId : string) (st : SocketService.t) :
  (SocketService.joinChat chatId st).1
  = SocketService.with_activeRooms
      (foldl SocketService.room_event (SocketService.activeRooms st)
         (SocketService.emitted (SocketService.joinChat chatId st).2)) st.
Proof.
  unfold SocketService.joinChat.
  destruct (negb (SocketService.socket_connected st));
    [symmetry; apply with_activeRooms_same|].
  destruct (SocketService.has chatId (SocketService.activeRooms st));
    [symmetry; apply with_activeRooms_same|reflexivity].
Qed.

(** Every call changes activeRooms only, and exactly as the join and leave
    events it emits say. *)
Lemma run_rooms (c : SocketService.Command) (st : SocketService.t) :
  (SocketService.run c st).1
  = SocketService.with_activeRooms
      (foldl SocketService.room_event (SocketService.activeRooms st)
         (SocketService.emitted (SocketService.run c st).2)) st.
Proof.
  destruct c as [chatId|chatIds|chatId|chatId message|communityId|communityId
                 |communityId post|chatId isTyping]; simpl.
  - apply joinChat_rooms.
  - unfold SocketService.joinChats. apply forEach_rooms. intros x st0.
    destruct (truthy (Some x) && negb (SocketService.has x (SocketService.activeRooms st0)));
      [apply joinChat_rooms|symmetry; apply with_activeRooms_same].
  - unfold SocketService.leaveChat.
    destruct (negb (SocketService.socket_connected st));
      [symmetry; apply with_activeRooms_same|].
    destruct (negb (SocketService.has chatId (SocketService.activeRooms st)));
      [symmetry; apply with_activeRooms_same|reflexivity].
  - unfold SocketService.sendMessage.
    destruct (negb (SocketService.socket_connected st));
      [symmetry; apply with_activeRooms_same|].
    destruct (negb (SocketService.has chatId (SocketService.activeRooms st))).
    + pose proof (joinChat_rooms chatId st) as Hj.
      destruct (SocketService.joinChat chatId st) as [st' out]. simpl in *.
      rewrite emitted_app, foldl_app. simpl. exact Hj.
    + symmetry. apply with_activeRooms_same.
  - unfold SocketService.joinCommunityFeed.
    destruct (negb (SocketService.socket_connected st));
      [symmetry; apply with_activeRooms_same|].
    destruct (SocketService.has _ (SocketService.activeRooms st));
      [symmetry; apply with_activeRooms_same|reflexivity].
  - unfold SocketService.leaveCommunityFeed.
    destruct (negb (SocketService.socket_connected st));
      [symmetry; apply with_activeRooms_same|].
    destruct (negb (SocketService.has _ (SocketService.activeRooms st)));
      [symmetry; apply with_activeRooms_same|reflexivity].
  - unfold SocketService.sendCommunityPost.
    destruct (negb (SocketService.socket_connected st));
      [symmetry; apply with_activeRooms_same|].
    destruct (negb (SocketService.has _ (SocketService.activeRooms st)));
      symmetry; apply with_activeRooms_same.
  - unfold SocketService.sendTypingIndicator.
    destruct (negb (SocketService.socket_connected st));
      symmetry; apply with_activeRooms_same.
Qed.

Lemma room_event_NoDup (rooms : list string) (ev : SocketService.SocketEvent) :
  NoDup rooms -> NoDup (SocketService.room_event rooms ev).
Proof.
  intros Hnd.
  assert (forall r, NoDup (SocketService.add r rooms)) as Hadd.
  { intros r. unfold SocketService.add.
    destruct (SocketService.has r rooms) eqn:Hh; [exact Hnd|].
    apply NoDup_app. split; [exact Hnd|]. split; [|apply NoDup_singleton].
    intros x Hx Hr. apply list_elem_of_singleton in Hr. subst x.
    apply has_true in Hx. congruence. }
  assert (forall r, NoDup (SocketService.delete r rooms)) as Hdel
    by (intros r; apply NoDup_filter; exact Hnd).
  destruct ev; simpl; auto.
Qed.

(** X13. Under the eight calls for rooms and messages (joinChat, joinChats,
    leaveChat, sendMessage, joinCommunityFeed, leaveCommunityFeed,
    sendCommunityPost and sendTypingIndicator), in any number and order and
    connected or not, the service changes nothing but activeRooms, and
    activeRooms is what the join and leave events sent so far make of it:
    replaying the emitted events on the rooms held before gives the rooms
    held after. A room set without duplicates stays without duplicates. The
    calls that manage the connection (initSocket, pauseConnection,
    resumeConnection, disconnect) and the generic emit are not among these
    calls, and the property is not stated of them. *)
Theorem activeRooms_mirror_the_wire (cs : list SocketService.Command)
    (st : SocketService.t) :
  let '(st', out) := SocketService.run_all cs st in
  st' = SocketService.with_activeRooms
          (foldl SocketService.room_event (SocketService.activeRooms st)
             (SocketService.emitted out)) st
  /\ (NoDup (SocketService.activeRooms st) -> NoDup (SocketService.activeRooms st')).
Proof.
  pose proof (forEach_rooms SocketService.run cs st run_rooms) as Hrun.
  unfold SocketService.run_all.
  destruct (SocketService.forEach SocketService.run cs st) as [st' out]. simpl in Hrun.
  split; [exact Hrun|]. intros Hnd. rewrite Hrun. simpl.
  generalize (SocketService.emitted out). intros evs. revert Hnd.
  generalize (SocketService.activeRooms st). intros rooms. revert rooms.
  induction evs as [|ev evs IH]; intros rooms Hnd; [exact Hnd|].
  simpl. apply IH, room_event_NoDup, Hnd.
Qed.

(** A loop whose body leaves the service as it is and emits nothing does so
    as a whole. *)
Lemma forEach_fixed {A : Type}
    (f : A -> SocketService.t -> SocketService.t * list SocketService.Effect)
    (l : list A) (st : SocketService.t) :
  (forall x, (f x st).1 = st /\ SocketService.emitted (f x st).2 = []) ->
  (SocketService.forEach f l st).1 = st
  /\ SocketService.emitted (SocketService.forEach f l st).2 = [].
Proof.
  intros Hf. unfold SocketService.forEach.
  assert (forall acc : SocketService.t * list SocketService.Effect,
            acc.1 = st -> SocketService.emitted acc.2 = [] ->
            let res := foldl (fun acc x => let '(st', out) := f x acc.1 in
                                           (st', acc.2 ++ out)) acc l in
            res.1 = st /\ SocketService.emitted res.2 = []) as Hgen.
  { induction l as [|x l IH]; intros acc H1 H2; [split; assumption|].
    cbn [foldl]. destruct (Hf x) as [Hst Hem]. rewrite H1.
    destruct (f x st) as [st' out]. simpl in *.
    apply IH; [exact Hst|]. simpl. rewrite emitted_app, H2, Hem. reflexivity. }
  apply Hgen; reflexivity.
Qed.

(** While the socket is not connected a call leaves the service as it is
    and emits nothing. *)
Lemma run_not_connected (c : SocketService.Command) (st : SocketService.t) :
  SocketService.socket_connected st = false ->
  (SocketService.run c st).1 = st /\ SocketService.emitted (SocketService.run c st).2 = [].
Proof.
  intros Hc.
  assert (forall x, (SocketService.joinChat x st).1 = st
                    /\ SocketService.emitted (SocketService.joinChat x st).2 = []) as Hj
    by (intros x; unfold SocketService.joinChat; rewrite Hc; split; reflexivity).
  destruct c as [chatId|chatIds|chatId|chatId message|communityId|communityId
                 |communityId post|chatId isTyping]; simpl.
  - apply Hj.
  - unfold SocketService.joinChats. apply forEach_fixed. intros x.
    destruct (truthy (Some x) && negb (SocketService.has x (SocketService.activeRooms st)));
      [apply Hj|split; reflexivity].
  - unfold SocketService.leaveChat. rewrite Hc. split; reflexivity.
  - unfold SocketService.sendMessage. rewrite Hc. split; reflexivity.
  - unfold SocketService.joinCommunityFeed. rewrite Hc. split; reflexivity.
  - unfold SocketService.leaveCommunityFeed. rewrite Hc. split; reflexivity.
  - unfold SocketService.sendCommunityPost. rewrite Hc. split; reflexivity.
  - unfold SocketService.sendTypingIndicator. rewrite Hc. split; reflexivity.
Qed.

(** X12. While the socket is missing or not connected, no call of a screen
    has any effect: joins, leaves, sends and typing indicators, in any
    number, leave the service exactly as it is and emit nothing. Rooms asked
    for in that time are not remembered for later. *)
Theorem calls_lost_while_disconnected (cs : list SocketService.Command)
    (st : SocketService.t) :
  SocketService.socket_connected st = false ->
  (SocketService.run_all cs st).1 = st
  /\ SocketService.emitted (SocketService.run_all cs st).2 = [].
Proof.
  intros Hc. unfold SocketService.run_all. apply forEach_fixed.
  intros c. apply run_not_connected, Hc.
Qed.

Lemma calls_lost_while_disconnected_witness :
  SocketService.socket_connected SocketService.initial = false
  /\ (SocketService.run_all
        [SocketService.JoinCommunityFeed "abc"; SocketService.SendMessage "chat1" "hi"]
        SocketService.initial).1 = SocketService.initial.
Proof.
  assert (SocketService.socket_connected SocketService.initial = false) as Hc
    by reflexivity.
  split; [exact Hc|].
  exact (proj1 (calls_lost_while_disconnected
                  [SocketService.JoinCommunityFeed "abc";
                   SocketService.SendMessage "chat1" "hi"]
                  SocketService.initial Hc)).
Defined.

Lemma add_absent (room : string) (rooms : list string) :
  room ∉ rooms -> SocketService.add room rooms = rooms ++ [room].
Proof.
  intros Hr. unfold SocketService.add.
  destruct (SocketService.has room rooms) eqn:Hh; [|reflexivity].
  apply has_true in Hh. contradiction.
Qed.

Lemma has_false (room : string) (rooms : list string) :
  SocketService.has room rooms = false <-> room ∉ rooms.
Proof. unfold SocketService.has. apply bool_decide_eq_false. Qed.

Lemma forEach_acc {A : Type}
    (f : A -> SocketService.t -> SocketService.t * list SocketService.Effect)
    (l : list A) (st : SocketService.t) (acc : list SocketService.Effect) :
  foldl (fun acc x => let '(st', out) := f x acc.1 in (st', acc.2 ++ out)) (st, acc) l
  = ((SocketService.forEach f l st).1, acc ++ (SocketService.forEach f l st).2).
Proof.
  unfold SocketService.forEach. revert st acc.
  induction l as [|x l IH]; intros st acc.
  - simpl. rewrite app_nil_r. reflexivity.
  - cbn [foldl]. destruct (f x st) as [st' out] eqn:Hf. cbn [fst snd].
    rewrite Hf. rewrite (IH st' (acc ++ out)), (IH st' ([] ++ out)).
    simpl. rewrite app_assoc. reflexivity.
Qed.

Lemma forEach_cons {A : Type}
    (f : A -> SocketService.t -> SocketService.t * list SocketService.Effect)
    (x : A) (l : list A) (st : SocketService.t) :
  SocketService.forEach f (x :: l) st
  = ((SocketService.forEach f l (f x st).1).1,
     (f x st).2 ++ (SocketService.forEach f l (f x st).1).2).
Proof.
  unfold SocketService.forEach at 1. cbn [foldl]. cbn [fst snd].
  destruct (f x st) as [st' out]. cbn [fst snd].
  rewrite forEach_acc. reflexivity.
Qed.

(** X14. joinChats on a connected socket: the rooms it adds, in the order it
    adds them, are exactly the rooms it sends a join request for, one request
    each; they are ids of the list that are not empty and were not joined
    before; and afterwards every non-empty id of the list is in activeRooms.
    Empty ids, ids that occur again and rooms already joined produce
    nothing. *)
Theorem joinChats_joins_each_once (chatIds : list string) (st : SocketService.t) :
  SocketService.socket_connected st = true ->
  exists new,
    SocketService.joinChats chatIds st
    = (SocketService.with_activeRooms (SocketService.activeRooms st ++ new) st,
       (fun room => SocketService.Emit (SocketService.join_chat room)) <$> new)
    /\ (forall chatId, chatId ∈ chatIds -> chatId <> ""%string ->
          chatId ∈ SocketService.activeRooms st ++ new)
    /\ (forall room, room ∈ new ->
          room ∈ chatIds /\ room <> ""%string /\ room ∉ SocketService.activeRooms st)
    /\ NoDup new.
Proof.
  unfold SocketService.joinChats.
  set (f := fun (chatId : string) (st : SocketService.t) =>
              if truthy (Some chatId)
                 && negb (SocketService.has chatId (SocketService.activeRooms st))
              then SocketService.joinChat chatId st else (st, [])).
  revert st. induction chatIds as [|x l IH]; intros st Hc.
  - exists []. rewrite !app_nil_r, with_activeRooms_same.
    split; [reflexivity|]. split; [intros c Hin; inversion Hin|].
    split; [intros r Hin; inversion Hin|constructor].
  - rewrite forEach_cons.
    destruct (truthy (Some x)
              && negb (SocketService.has x (SocketService.activeRooms st))) eqn:Hcond.
    + assert (f x st
              = (SocketService.with_activeRooms (SocketService.activeRooms st ++ [x]) st,
                 [SocketService.Emit (SocketService.join_chat x)])) as Hf.
      { unfold f. rewrite Hcond.
        apply andb_true_iff in Hcond as [_ Hh]. apply negb_true_iff in Hh.
        unfold SocketService.joinChat. rewrite Hc, Hh. cbn [negb].
        rewrite add_absent by (apply has_false; exact Hh). reflexivity. }
      apply andb_true_iff in Hcond as [Hx Hh]. apply negb_true_iff in Hh.
      assert (x <> ""%string) as Hne.
      { intros ->. vm_compute in Hx. discriminate. }
      assert (x ∉ SocketService.activeRooms st) as Hout by (apply has_false; exact Hh).
      rewrite Hf. cbn [fst snd].
      destruct (IH (SocketService.with_activeRooms (SocketService.activeRooms st ++ [x]) st))
        as (new & Hrun & Hin & Hnew & Hnd); [exact Hc|].
      cbn [SocketService.activeRooms SocketService.with_activeRooms] in Hrun, Hin, Hnew.
      exists (x :: new).
      split; [|split; [|split]].
      * rewrite Hrun. cbn [fst snd]. rewrite <- !app_assoc. reflexivity.
      * intros c Hcin Hcne. apply elem_of_cons in Hcin as [->|Hcin].
        -- apply elem_of_app. right. apply list_elem_of_here.
        -- specialize (Hin c Hcin Hcne). rewrite <- app_assoc in Hin. exact Hin.
      * intros r Hr. apply elem_of_cons in Hr as [->|Hr].
        -- split; [apply list_elem_of_here|]. split; assumption.
        -- destruct (Hnew r Hr) as (H1 & H2 & H3).
           split; [apply list_elem_of_further; exact H1|]. split; [exact H2|].
           intros Hrin. apply H3. apply elem_of_app. left. exact Hrin.
      * apply NoDup_cons. split; [|exact Hnd].
        intros Hxin. destruct (Hnew x Hxin) as (_ & _ & H3).
        apply H3. apply elem_of_app. right. apply list_elem_of_here.
    + assert (f x st = (st, [])) as Hf by (unfold f; rewrite Hcond; reflexivity).
      rewrite Hf. cbn [fst snd].
      destruct (IH st Hc) as (new & Hrun & Hin & Hnew & Hnd).
      exists new. split; [rewrite Hrun; reflexivity|]. split; [|split; [|exact Hnd]].
      * intros c Hcin Hcne. apply elem_of_cons in Hcin as [Heq|Hcin]; [|auto].
        subst c. apply elem_of_app. left. apply andb_false_iff in Hcond as [Hx|Hh].
        -- destruct x as [|a x]; [contradiction|]. vm_compute in Hx. discriminate.
        -- apply negb_false_iff in Hh. apply has_true. exact Hh.
      * intros r Hr. destruct (Hnew r Hr) as (H1 & H2 & H3).
        split; [apply list_elem_of_further; exact H1|]. split; assumption.
Qed.

Lemma joinChats_joins_each_once_witness :
  SocketService.socket_connected Sample.joined = true
  /\ exists new,
       SocketService.joinChats ["chat1"; ""; "community_abc"; "chat1"]%string Sample.joined
       = (SocketService.with_activeRooms
            (SocketService.activeRooms Sample.joined ++ new) Sample.joined,
          (fun room => SocketService.Emit (SocketService.join_chat room)) <$> new)
       /\ NoDup new.
Proof.
  assert (SocketService.socket_connected Sample.joined = true) as Hc by reflexivity.
  split; [exact Hc|].
  destruct (joinChats_joins_each_once ["chat1"; ""; "community_abc"; "chat1"]%string
              Sample.joined Hc) as (new & Hrun & _ & _ & Hnd).
  exists new. split; [exact Hrun|exact Hnd].
Defined.

(** ** Rooms across a reconnection *)

Lemma forEach_invariant {A : Type}
    (P : SocketService.t -> Prop) (Q : list SocketService.Effect -> Prop)
    (f : A -> SocketService.t -> SocketService.t * list SocketService.Effect)
    (l : list A) (st : SocketService.t) :
  Q [] ->
  (forall a b, Q a -> Q b -> Q (a ++ b)) ->
  (forall x st0, x ∈ l -> P st0 -> P (f x st0).1 /\ Q (f x st0).2) ->
  P st ->
  P (SocketService.forEach f l st).1 /\ Q (SocketService.forEach f l st).2.
Proof.
  intros Hnil Happ. revert st. induction l as [|x l IH]; intros st Hf HP.
  - split; [exact HP|exact Hnil].
  - rewrite forEach_cons. cbn [fst snd].
    destruct (Hf x st) as [HP1 HQ1]; [apply list_elem_of_here|exact HP|].
    destruct (IH (f x st).1) as [HP2 HQ2].
    + intros y st0 Hy. apply Hf. apply list_elem_of_further. exact Hy.
    + exact HP1.
    + split; [exact HP2|]. apply Happ; assumption.
Qed.

Lemma delete_other (room other : string) (rooms : list string) :
  room ∈ rooms -> other <> room -> room ∈ SocketService.delete other rooms.
Proof.
  intros Hin Hne. unfold SocketService.delete. apply list_elem_of_filter.
  split; [congruence|exact Hin].
Qed.

Lemma add_keeps (room other : string) (rooms : list string) :
  room ∈ rooms -> room ∈ SocketService.add other rooms.
Proof.
  intros Hin. unfold SocketService.add.
  destruct (SocketService.has other rooms); [exact Hin|].
  apply elem_of_app. left. exact Hin.
Qed.

(** joinChat never asks to join a room that is in activeRooms. *)
Lemma joinChat_keeps_room (room chatId : string) (st : SocketService.t) :
  room ∈ SocketService.activeRooms st ->
  room ∈ SocketService.activeRooms (SocketService.joinChat chatId st).1
  /\ room ∉ SocketService.join_requests (SocketService.joinChat chatId st).2.
Proof.
  intros Hin. unfold SocketService.joinChat.
  destruct (negb (SocketService.socket_connected st));
    [split; [exact Hin|apply not_elem_of_nil]|].
  destruct (SocketService.has chatId (SocketService.activeRooms st)) eqn:Hh;
    [split; [exact Hin|apply not_elem_of_nil]|].
  split; [apply add_keeps, Hin|]. simpl.
  intros Hr. apply list_elem_of_singleton in Hr. subst chatId.
  apply has_true in Hin. congruence.
Qed.

(** A call other than a leave of the room keeps a joined room joined and
    sends no join request for it. *)
Lemma run_keeps_room (room : string) (c : SocketService.Command)
    (st : SocketService.t) :
  room ∈ SocketService.activeRooms st ->
  c <> SocketService.LeaveChat room ->
  (forall id, c = SocketService.LeaveCommunityFeed id -> "community_" +:+ id <> room) ->
  room ∈ SocketService.activeRooms (SocketService.run c st).1
  /\ room ∉ SocketService.join_requests (SocketService.run c st).2.
Proof.
  intros Hin Hleave Hfeed.
  destruct c as [chatId|chatIds|chatId|chatId message|communityId|communityId
                 |communityId post|chatId isTyping]; simpl.
  - apply joinChat_keeps_room, Hin.
  - unfold SocketService.joinChats.
    apply (forEach_invariant
             (fun st0 => room ∈ SocketService.activeRooms st0)
             (fun out => room ∉ SocketService.join_requests out)).
    + apply not_elem_of_nil.
    + intros a b Ha Hb. rewrite join_requests_app. intros Hr.
      apply elem_of_app in Hr as [Hr|Hr]; [exact (Ha Hr)|exact (Hb Hr)].
    + intros x st0 _ Hin0.
      destruct (truthy (Some x)
                && negb (SocketService.has x (SocketService.activeRooms st0)));
        [apply joinChat_keeps_room, Hin0|split; [exact Hin0|apply not_elem_of_nil]].
    + exact Hin.
  - unfold SocketService.leaveChat.
    destruct (negb (SocketService.socket_connected st));
      [split; [exact Hin|apply not_elem_of_nil]|].
    destruct (negb (SocketService.has chatId (SocketService.activeRooms st)));
      [split; [exact Hin|apply not_elem_of_nil]|].
    split; [|apply not_elem_of_nil]. simpl. apply delete_other; [exact Hin|].
    intros ->. apply Hleave. reflexivity.
  - unfold SocketService.sendMessage.
    destruct (negb (SocketService.socket_connected st));
      [split; [exact Hin|apply not_elem_of_nil]|].
    destruct (negb (SocketService.has chatId (SocketService.activeRooms st))).
    + destruct (joinChat_keeps_room room chatId st Hin) as [H1 H2].
      destruct (SocketService.joinChat chatId st) as [st' out]. cbn [fst snd] in *.
      split; [exact H1|]. rewrite join_requests_app.
      change (SocketService.join_requests
                [SocketService.Emit (SocketService.send_message message chatId)])
        with (@nil string).
      rewrite app_nil_r. exact H2.
    + split; [exact Hin|apply not_elem_of_nil].
  - unfold SocketService.joinCommunityFeed.
    destruct (negb (SocketService.socket_connected st));
      [split; [exact Hin|apply not_elem_of_nil]|].
    cbv zeta.
    destruct (SocketService.has ("community_" +:+ communityId)
                (SocketService.activeRooms st)) eqn:Hh;
      [split; [exact Hin|apply not_elem_of_nil]|].
    split; [apply add_keeps, Hin|]. simpl.
    intros Hr. apply list_elem_of_singleton in Hr. subst room.
    apply has_true in Hin. congruence.
  - unfold SocketService.leaveCommunityFeed.
    destruct (negb (SocketService.socket_connected st));
      [split; [exact Hin|apply not_elem_of_nil]|].
    cbv zeta.
    destruct (negb (SocketService.has ("community_" +:+ communityId)
                      (SocketService.activeRooms st)));
      [split; [exact Hin|apply not_elem_of_nil]|].
    split; [|apply not_elem_of_nil]. simpl. apply delete_other; [exact Hin|].
    apply (Hfeed communityId). reflexivity.
  - unfold SocketService.sendCommunityPost.
    destruct (negb (SocketService.socket_connected st));
      [split; [exact Hin|apply not_elem_of_nil]|].
    cbv zeta. split; [exact Hin|]. cbn [fst snd].
    destruct (negb (SocketService.has ("community_" +:+ communityId)
                      (SocketService.activeRooms st))); apply not_elem_of_nil.
  - unfold SocketService.sendTypingIndicator.
    destruct (negb (SocketService.socket_connected st));
      split; try exact Hin; apply not_elem_of_nil.
Qed.

(** The connect handler leaves the service as it found it, marked
    connected. *)
Lemma on_connect_state (userId : string) (st : SocketService.t) :
  (SocketService.on_connect userId st).1 = SocketService.with_isConnected true st.
Proof.
  unfold SocketService.on_connect, SocketService.authenticate.
  destruct (rejoin_sends_nothing (SocketService.with_isConnected true st))
    as (out & Hfold & _).
  simpl in Hfold.
  destruct (negb (SocketService.socket_connected st)); simpl;
    (destruct (0 <? length (SocketService.activeRooms st));
     [rewrite Hfold; reflexivity|reflexivity]).
Qed.

Lemma initSocket_socket (userId : string) (st : SocketService.t) :
  is_Some (SocketService.socket (SocketService.initSocket userId st).1).
Proof.
  unfold SocketService.initSocket.
  destruct (SocketService.socket st) as [s|] eqn:Hs; simpl.
  - destruct (SocketService._isConnected st
              && strict_eq (SocketService.userId st) (Some userId)).
    + simpl. rewrite Hs. eexists. reflexivity.
    + destruct (SocketService.socket_disconnect st). simpl. eexists. reflexivity.
  - eexists. reflexivity.
Qed.

Lemma transport_connected_connected (userId : string) (st : SocketService.t) :
  is_Some (SocketService.socket st) ->
  SocketService.socket_connected (SocketService.transport_connected userId st).1 = true.
Proof.
  intros [s Hs]. unfold SocketService.transport_connected. rewrite Hs.
  rewrite on_connect_state. reflexivity.
Qed.

Lemma transport_lost_activeRooms (reason : string) (st : SocketService.t) :
  SocketService.activeRooms (SocketService.transport_lost reason st).1
  = SocketService.activeRooms st.
Proof.
  unfold SocketService.transport_lost, SocketService.on_disconnect.
  destruct (SocketService.socket_connected st); [|reflexivity]. simpl.
  destruct (negb (reason =? "io client disconnect")%string
            && SocketService.isPersistent st); [|reflexivity].
  destruct (SocketService.userId st); reflexivity.
Qed.

(** X15. A room joined before the connection was lost is never joined again
    on the new connection. After the transport is lost, the scheduled
    initSocket has run and the new socket has connected, the service is
    connected and still lists the room; and as long as the screens do not
    leave the room, no call they make (joinChat, joinChats, sendMessage,
    joinCommunityFeed and the others, in any number and order) sends a join
    request for it, nor does the connect handler. *)
Theorem no_rejoin_after_reconnect (reason userId room : string)
    (cs : list SocketService.Command) (st : SocketService.t) :
  room ∈ SocketService.activeRooms st ->
  SocketService.LeaveChat room ∉ cs ->
  (forall id, SocketService.LeaveCommunityFeed id ∈ cs -> "community_" +:+ id <> room) ->
  let lost := (SocketService.transport_lost reason st).1 in
  let connect :=
    SocketService.transport_connected userId (SocketService.initSocket userId lost).1 in
  let later := SocketService.run_all cs connect.1 in
  SocketService.socket_connected connect.1 = true
  /\ room ∈ SocketService.activeRooms later.1
  /\ room ∉ SocketService.join_requests (connect.2 ++ later.2).
Proof.
  intros Hin Hleave Hfeed lost connect later.
  assert (room ∈ SocketService.activeRooms connect.1) as Hin'.
  { unfold connect. rewrite (proj1 (transport_connected_emitted userId _)).
    rewrite initSocket_activeRooms. unfold lost.
    rewrite transport_lost_activeRooms. exact Hin. }
  split; [apply transport_connected_connected, initSocket_socket|].
  destruct (forEach_invariant
              (fun st0 => room ∈ SocketService.activeRooms st0)
              (fun out => room ∉ SocketService.join_requests out)
              SocketService.run cs connect.1) as [H1 H2].
  - apply not_elem_of_nil.
  - intros a b Ha Hb. rewrite join_requests_app. intros Hr.
    apply elem_of_app in Hr as [Hr|Hr]; [exact (Ha Hr)|exact (Hb Hr)].
  - intros c st0 Hc Hin0. apply run_keeps_room; [exact Hin0| |].
    + intros ->. exact (Hleave Hc).
    + intros id ->. exact (Hfeed id Hc).
  - exact Hin'.
  - split; [exact H1|]. rewrite join_requests_app.
    unfold connect at 1. rewrite transport_connected_no_join. exact H2.
Qed.

Lemma no_rejoin_after_reconnect_witness :
  let cs := [SocketService.SendCommunityPost "abc" "gm";
             SocketService.JoinCommunityFeed "abc";
             SocketService.JoinChats ["community_abc"; "chat1"];
             SocketService.LeaveChat "chat1";
             SocketService.SendMessage "community_abc" "gm"]%string in
  let connect :=
    SocketService.transport_connected "user1"
      (SocketService.initSocket "user1"
         (SocketService.transport_lost "transport close" Sample.joined).1).1 in
  "community_abc"%string ∈ SocketService.activeRooms Sample.joined
  /\ SocketService.socket_connected connect.1 = true
  /\ "community_abc"%string
       ∈ SocketService.activeRooms (SocketService.run_all cs connect.1).1
  /\ "community_abc"%string
       ∉ SocketService.join_requests
           (connect.2 ++ (SocketService.run_all cs connect.1).2).
Proof.
  intros cs connect.
  assert ("community_abc"%string ∈ SocketService.activeRooms Sample.joined) as Hin
    by (vm_compute; apply list_elem_of_here).
  split; [exact Hin|].
  apply (no_rejoin_after_reconnect "transport close" "user1" "community_abc" cs
           Sample.joined Hin).
  - intros H. repeat (apply elem_of_cons in H as [H|H]; [discriminate|]).
    inversion H.
  - intros id H.
    repeat (apply elem_of_cons in H as [H|H]; [discriminate|]). inversion H.
Defined.

(** ** The socket across app states *)

Lemma truthy_nonempty (s : string) : s <> ""%string -> truthy (Some s) = true.
Proof. intros Hs. simpl. apply negb_true_iff. apply String.eqb_neq. exact Hs. Qed.

Lemma sendMessage_fresh (chatId message : string) (st : SocketService.t) :
  SocketService.socket_connected st = true ->
  SocketService.activeRooms st = [] ->
  SocketService.sendMessage chatId message st
  = (SocketService.with_activeRooms [chatId] st,
     [SocketService.Emit (SocketService.join_chat chatId);
      SocketService.Emit (SocketService.send_message message chatId)]).
Proof.
  intros Hc Hrooms. unfold SocketService.sendMessage, SocketService.joinChat.
  rewrite Hc, Hrooms. reflexivity.
Qed.

(** X16. The app goes to the background (or becomes inactive) and comes back
    while a user is logged in and the service is connected. Going away
    disconnects and empties activeRooms; coming back opens a new socket, and
    when it connects the service authenticates and joins nothing: the rooms
    held before are gone. A message sent then to any chat is preceded by a
    fresh join request for that chat, which becomes the only room. *)
Theorem foreground_starts_without_rooms (userId away chatId message : string)
    (st : SocketService.t) :
  userId <> ""%string ->
  away = "background"%string \/ away = "inactive"%string ->
  is_Some (SocketService.socket st) ->
  SocketService._isConnected st = true ->
  let paused := (RootNavigator.handleAppStateChange (Some userId) away st).1 in
  let resumed := (RootNavigator.handleAppStateChange (Some userId) "active" paused).1 in
  let connect := SocketService.transport_connected userId resumed in
  SocketService.activeRooms paused = []
  /\ SocketService.socket_connected paused = false
  /\ SocketService.socket_connected connect.1 = true
  /\ SocketService.emitted connect.2 = [SocketService.authenticate_ev userId]
  /\ SocketService.activeRooms connect.1 = []
  /\ SocketService.sendMessage chatId message connect.1
     = (SocketService.with_activeRooms [chatId] connect.1,
        [SocketService.Emit (SocketService.join_chat chatId);
         SocketService.Emit (SocketService.send_message message chatId)]).
Proof.
  intros Hu Haway [s Hs] Hconn paused resumed connect.
  assert (paused = (SocketService.pauseConnection st).1) as Hpaused.
  { unfold paused, RootNavigator.handleAppStateChange.
    rewrite (truthy_nonempty userId Hu). destruct Haway as [->| ->]; reflexivity. }
  assert (SocketService.activeRooms paused = []
          /\ SocketService.socket_connected paused = false
          /\ SocketService._isConnected paused = false) as (Hrooms & Hsock & Hflag).
  { rewrite Hpaused. unfold SocketService.pauseConnection. rewrite Hs, Hconn.
    simpl. unfold SocketService.socket_disconnect, SocketService.socket_connected.
    simpl. rewrite Hs. destruct s as [[|]]; simpl; [|rewrite Hs];
      split; try reflexivity; split; reflexivity. }
  assert (resumed = (SocketService.initSocket userId paused).1) as Hresumed.
  { unfold resumed, RootNavigator.handleAppStateChange.
    rewrite (truthy_nonempty userId Hu). reflexivity. }
  assert (SocketService.activeRooms connect.1 = []) as Hrooms'.
  { unfold connect. rewrite (proj1 (transport_connected_emitted userId _)).
    rewrite Hresumed, initSocket_activeRooms. exact Hrooms. }
  assert (SocketService.socket_connected connect.1 = true) as Hsock'.
  { unfold connect. apply transport_connected_connected.
    rewrite Hresumed. apply initSocket_socket. }
  split; [exact Hrooms|]. split; [exact Hsock|]. split; [exact Hsock'|].
  split; [|split; [exact Hrooms'|apply sendMessage_fresh; assumption]].
  unfold connect. rewrite (proj2 (transport_connected_emitted userId _)).
  rewrite bool_decide_eq_true_2; [reflexivity|].
  rewrite Hresumed. apply initSocket_socket.
Qed.

Lemma foreground_starts_without_rooms_witness :
  let paused :=
    (RootNavigator.handleAppStateChange (Some "user1"%string) "background"
       Sample.joined).1 in
  let resumed :=
    (RootNavigator.handleAppStateChange (Some "user1"%string) "active" paused).1 in
  let connect := SocketService.transport_connected "user1" resumed in
  SocketService.activeRooms Sample.joined = ["community_abc"%string]
  /\ SocketService.activeRooms paused = []
  /\ SocketService.socket_connected paused = false
  /\ SocketService.socket_connected connect.1 = true
  /\ SocketService.emitted connect.2 = [SocketService.authenticate_ev "user1"]
  /\ SocketService.activeRooms connect.1 = []
  /\ SocketService.sendMessage "community_abc" "gm" connect.1
     = (SocketService.with_activeRooms ["community_abc"%string] connect.1,
        [SocketService.Emit (SocketService.join_chat "community_abc");
         SocketService.Emit (SocketService.send_message "gm" "community_abc")]).
Proof.
  intros paused resumed connect. split; [reflexivity|].
  apply (foreground_starts_without_rooms "user1" "background" "community_abc" "gm"
           Sample.joined).
  - discriminate.
  - left. reflexivity.
  - eexists. reflexivity.
  - reflexivity.
Defined.

(** ** A feed screen joins and leaves its room *)

Lemma delete_absent (room : string) (rooms : list string) :
  room ∉ rooms -> SocketService.delete room rooms = rooms.
Proof.
  unfold SocketService.delete. induction rooms as [|r rooms IH]; [reflexivity|].
  intros Hr. apply not_elem_of_cons in Hr as [Hne Hr].
  rewrite filter_cons_True by congruence. f_equal. apply IH, Hr.
Qed.

Lemma delete_add_absent (room : string) (rooms : list string) :
  room ∉ rooms -> SocketService.delete room (SocketService.add room rooms) = rooms.
Proof.
  intros Hr. rewrite (add_absent room rooms Hr). unfold SocketService.delete.
  rewrite filter_app, filter_cons_False by (intros Hne; apply Hne; reflexivity).
  rewrite filter_nil, app_nil_r. apply delete_absent, Hr.
Qed.

(** X17. A feed screen that joins the room of its community on a connected
    service, where the room was not joined, sends one join request; a second
    join of the same feed sends nothing; and one leave sends one leave
    request and gives back the service exactly as it was before the first
    join. Joins are not counted: after two joins, one leave is enough to be
    out of the room. *)
Theorem feed_join_leave_roundtrip (communityId : string) (st : SocketService.t) :
  SocketService.socket_connected st = true ->
  "community_" +:+ communityId ∉ SocketService.activeRooms st ->
  let room := "community_" +:+ communityId in
  let first := SocketService.joinCommunityFeed communityId st in
  let second := SocketService.joinCommunityFeed communityId first.1 in
  let leave := SocketService.leaveCommunityFeed communityId second.1 in
  first.2 = [SocketService.Emit (SocketService.join_community room)]
  /\ SocketService.activeRooms first.1 = SocketService.activeRooms st ++ [room]
  /\ second = (first.1, [])
  /\ leave = (st, [SocketService.Emit (SocketService.leave_community room)]).
Proof.
  intros Hc Hout room first second leave.
  assert (SocketService.has room (SocketService.activeRooms st) = false) as Hh
    by (apply has_false; exact Hout).
  assert (first = (SocketService.with_activeRooms
                     (SocketService.add room (SocketService.activeRooms st)) st,
                   [SocketService.Emit (SocketService.join_community room)])) as Hfirst.
  { unfold first, SocketService.joinCommunityFeed. rewrite Hc. cbv zeta.
    fold room. rewrite Hh. reflexivity. }
  assert (second = (first.1, [])) as Hsecond.
  { unfold second, SocketService.joinCommunityFeed. rewrite Hfirst. cbn [fst].
    change (SocketService.socket_connected (SocketService.with_activeRooms _ st))
      with (SocketService.socket_connected st).
    rewrite Hc. cbv zeta. fold room. cbn [SocketService.activeRooms
                                          SocketService.with_activeRooms negb].
    rewrite has_add. reflexivity. }
  split; [rewrite Hfirst; reflexivity|].
  split; [rewrite Hfirst; cbn [fst SocketService.activeRooms
                                SocketService.with_activeRooms];
          apply add_absent, Hout|].
  split; [exact Hsecond|].
  unfold leave, SocketService.leaveCommunityFeed. rewrite Hsecond, Hfirst. cbn [fst].
  change (SocketService.socket_connected (SocketService.with_activeRooms _ st))
    with (SocketService.socket_connected st).
  rewrite Hc. cbv zeta. fold room.
  cbn [SocketService.activeRooms SocketService.with_activeRooms negb].
  rewrite has_add. cbn [negb]. rewrite with_activeRooms_twice.
  rewrite (delete_add_absent room _ Hout), with_activeRooms_same. reflexivity.
Qed.

Lemma feed_join_leave_roundtrip_witness :
  let first := SocketService.joinCommunityFeed "abc" Sample.online in
  let second := SocketService.joinCommunityFeed "abc" first.1 in
  let leave := SocketService.leaveCommunityFeed "abc" second.1 in
  SocketService.socket_connected Sample.online = true
  /\ first.2 = [SocketService.Emit (SocketService.join_community "community_abc")]
  /\ SocketService.activeRooms first.1
     = SocketService.activeRooms Sample.online ++ ["community_abc"%string]
  /\ second = (first.1, [])
  /\ leave = (Sample.online,
              [SocketService.Emit (SocketService.leave_community "community_abc")]).
Proof.
  assert (SocketService.socket_connected Sample.online = true) as Hc by reflexivity.
  intros first second leave. split; [exact Hc|].
  apply (feed_join_leave_roundtrip "abc" Sample.online Hc).
  vm_compute. apply not_elem_of_nil.
Defined.

(** ** A post received while the feed is shown *)

Lemma Exists_id_elem (id : string) (posts : list CommunityPost.t) :
  Exists (fun p => CommunityPost.id p = id) posts <-> id ∈ CommunityPost.id <$> posts.
Proof.
  rewrite Exists_exists. split.
  - intros (p & Hp & Hid). apply list_elem_of_fmap. exists p. split; [congruence|exact Hp].
  - intros Hin. apply list_elem_of_fmap in Hin as (p & Hid & Hp).
    exists p. split; [exact Hp|congruence].
Qed.

Lemma setAuthorName_ids (postId name : string) (posts : list CommunityPost.t) :
  CommunityPost.id <$> CommunityFeedScreen.setAuthorName postId name posts
  = CommunityPost.id <$> posts.
Proof.
  unfold CommunityFeedScreen.setAuthorName.
  apply (update_keys CommunityPost.id). reflexivity.
Qed.

(** Up to the author's name, the posts that resolveAuthorName shows are the
    posts it was given, the cache row of the post is the post, the other
    rows are untouched. *)
Lemma resolveAuthorName_effect (post : CommunityPost.t) (resolving : bool)
    (lookup : CommunityFeedScreen.NameLookup) (posts : list CommunityPost.t)
    (db : SQLiteService.Database) :
  let resolved := CommunityFeedScreen.resolveAuthorName post resolving lookup posts db in
  CommunityPost.id <$> resolved.1 = CommunityPost.id <$> posts
  /\ (resolved.2 = db
      \/ exists name,
           resolved.2
           = SQLiteService.insertCommunityPost
               (CommunityFeedScreen.with_author_name name post) db)
  /\ (truthy (CommunityPost.author_name post) = true \/ resolving = true ->
      resolved = (posts, db)).
Proof.
  intros resolved. subst resolved. unfold CommunityFeedScreen.resolveAuthorName.
  destruct (negb (truthy (CommunityPost.author_name post)) && negb resolving) eqn:Hcond.
  - apply andb_true_iff in Hcond as [Hname Hres].
    apply negb_true_iff in Hname, Hres.
    destruct lookup as [name|]; cbn [fst snd].
    + split; [apply setAuthorName_ids|]. split; [right; eexists; reflexivity|].
      intros [Ht| ->]; [rewrite Ht in Hname|]; discriminate.
    + split; [apply setAuthorName_ids|]. split; [left; reflexivity|].
      intros [Ht| ->]; [rewrite Ht in Hname|]; discriminate.
  - split; [reflexivity|]. split; [left; reflexivity|]. reflexivity.
Qed.

(** X18. handleCommunityPostReceived, with the resolution of the author's
    name it starts once the insert is done, whatever that lookup comes to.
    The ids the screen shows afterwards are the ids shown before, with the
    id of the received post put in front exactly when it was not shown, so
    shown ids stay unique. The cache afterwards has one row of that id: the
    received post, or the received post with an author name set; every row
    of another id is as before, the communities are untouched and unique
    ids stay unique. For a post that arrives with an author name, or whose
    author is being resolved, the handler shows and stores the post as
    received. *)
Theorem handleCommunityPostReceived_keeps_ids (receivedPost : CommunityPost.t)
    (resolving : bool) (lookup : CommunityFeedScreen.NameLookup)
    (posts : list CommunityPost.t) (db : SQLiteService.Database) :
  let handled :=
    CommunityFeedScreen.handleCommunityPostReceived receivedPost resolving lookup
      posts db in
  CommunityPost.id <$> handled.1
  = (if decide (CommunityPost.id receivedPost ∈ CommunityPost.id <$> posts)
     then CommunityPost.id <$> posts
     else CommunityPost.id receivedPost :: (CommunityPost.id <$> posts))
  /\ (NoDup (CommunityPost.id <$> posts) -> NoDup (CommunityPost.id <$> handled.1))
  /\ (exists row,
        filter (fun r => CommunityPost.id r = CommunityPost.id receivedPost)
          (SQLiteService.community_posts handled.2) = [row]
        /\ (row = receivedPost
            \/ exists name, row = CommunityFeedScreen.with_author_name name receivedPost))
  /\ filter (fun r => CommunityPost.id r <> CommunityPost.id receivedPost)
       (SQLiteService.community_posts handled.2)
     = filter (fun r => CommunityPost.id r <> CommunityPost.id receivedPost)
         (SQLiteService.community_posts db)
  /\ SQLiteService.communities handled.2 = SQLiteService.communities db
  /\ (SQLiteService.primary_keys db -> SQLiteService.primary_keys handled.2)
  /\ (truthy (CommunityPost.author_name receivedPost) = true \/ resolving = true ->
      handled
      = (if decide (CommunityPost.id receivedPost ∈ CommunityPost.id <$> posts)
         then posts else receivedPost :: posts,
         SQLiteService.insertCommunityPost receivedPost db)).
Proof.
  intros handled. subst handled.
  unfold CommunityFeedScreen.handleCommunityPostReceived. cbv zeta.
  set (shown := if bool_decide (Exists (fun p => CommunityPost.id p
                                                 = CommunityPost.id receivedPost) posts)
                then posts else receivedPost :: posts).
  set (db1 := SQLiteService.insertCommunityPost receivedPost db).
  assert (shown = if decide (CommunityPost.id receivedPost ∈ CommunityPost.id <$> posts)
                  then posts else receivedPost :: posts) as Hshown.
  { unfold shown. destruct (decide _) as [Hin|Hout].
    - rewrite bool_decide_eq_true_2 by (apply Exists_id_elem; exact Hin). reflexivity.
    - rewrite bool_decide_eq_false_2 by (rewrite Exists_id_elem; exact Hout).
      reflexivity. }
  assert (CommunityPost.id <$> shown
          = if decide (CommunityPost.id receivedPost ∈ CommunityPost.id <$> posts)
            then CommunityPost.id <$> posts
            else CommunityPost.id receivedPost :: (CommunityPost.id <$> posts)) as Hids.
  { rewrite Hshown. destruct (decide _); reflexivity. }
  destruct (resolveAuthorName_effect receivedPost resolving lookup shown db1)
    as (Hres_ids & Hres_db & Hres_skip).
  cbv zeta in Hres_ids, Hres_db, Hres_skip.
  set (resolved := CommunityFeedScreen.resolveAuthorName receivedPost resolving lookup
                     shown db1) in *.
  assert (resolved.2 = db1
          \/ exists name,
               resolved.2 = SQLiteService.insertCommunityPost
                              (CommunityFeedScreen.with_author_name name receivedPost) db)
    as Hdb.
  { destruct Hres_db as [Hd|(name & Hd)]; [left; exact Hd|]. right. exists name.
    rewrite Hd. unfold db1, SQLiteService.insertCommunityPost. simpl. f_equal.
    rewrite (filter_key_ne_snoc CommunityPost.id) by reflexivity.
    rewrite (filter_key_ne_idemp CommunityPost.id). reflexivity. }
  split; [rewrite Hres_ids; exact Hids|]. split; [|split; [|split; [|split; [|split]]]].
  - intros Hnd. rewrite Hres_ids, Hids. destruct (decide _) as [Hin|Hout];
      [exact Hnd|]. apply NoDup_cons. split; assumption.
  - destruct Hdb as [Hd|(name & Hd)]; rewrite Hd.
    + exists receivedPost. split; [|left; reflexivity].
      apply (filter_key_eq_upsert CommunityPost.id).
    + exists (CommunityFeedScreen.with_author_name name receivedPost).
      split; [|right; exists name; reflexivity].
      apply (filter_key_eq_upsert CommunityPost.id
               (CommunityFeedScreen.with_author_name name receivedPost)).
  - destruct Hdb as [Hd|(name & Hd)]; rewrite Hd; simpl.
    + rewrite (filter_key_ne_snoc CommunityPost.id) by reflexivity.
      apply (filter_key_ne_idemp CommunityPost.id).
    + rewrite (filter_key_ne_snoc CommunityPost.id) by reflexivity.
      apply (filter_key_ne_idemp CommunityPost.id).
  - destruct Hdb as [Hd|(name & Hd)]; rewrite Hd; reflexivity.
  - intros Hpk. destruct Hdb as [Hd|(name & Hd)]; rewrite Hd;
      apply insertCommunityPost_primary_keys, Hpk.
  - intros Hskip. rewrite (Hres_skip Hskip). rewrite Hshown. reflexivity.
Qed.
